(** * smartctl_exporter: the device-inventory lifecycle of [main.go]

    A shallow embedding of [scanDevices], [filterDevices], [Collect],
    [RescanForDevices] and the start-up sequence of [main] (Part I), the
    vocabulary in which their properties are stated (Part II), concrete
    collaborators to run them on (Part III), and the proofs (Part IV).

    Go strings are byte strings; they are modelled by [string] (a list of
    8-bit characters).  The libraries [main.go] imports (gjson, regexp,
    [strings.TrimSpace]) and the helpers of this repository that live
    outside [main.go] are taken as interfaces, so every result holds for
    whatever they compute.  Logging has no effect on the values computed and
    is left out. *)

From stdpp Require Import gmap strings list.
From Stdlib Require Import ZArith Lia Ascii.

Local Open Scope string_scope.
Local Open Scope list_scope.
Local Open Scope nat_scope.

(** * Part I: the program *)

(** ** Package [strings] *)

Module strings.

(** [strings.HasPrefix(s, prefix)]. *)
Fixpoint HasPrefix (s prefix : string) {struct prefix} : bool :=
  match prefix, s with
  | EmptyString, _ => true
  | String _ _, EmptyString => false
  | String c prefix', String d s' =>
      if decide (c = d) then HasPrefix s' prefix' else false
  end.

(** [strings.Contains(s, substr)]: [substr] occurs in [s] at some byte
    offset. *)
Fixpoint Contains (s substr : string) : bool :=
  HasPrefix s substr ||
  match s with
  | EmptyString => false
  | String _ s' => Contains s' substr
  end.

End strings.

(** ** Package [gjson]: the structured listings the reader returns *)

Module gjson.

(** [gjson.Result] with the four methods [main.go] calls. *)
Class Result (R : Type) := {
  Get : R → string → R;
  Array : R → list R;
  String : R → string;
  Exists : R → bool;
}.

End gjson.

(** ** Package [regexp] *)

Module regexp.

Class Engine := {
  Regexp : Type;
  MustCompile : string → Regexp;
  MatchString : Regexp → string → bool;
}.

End regexp.

(** ** Package [main] *)

Module exporter.

(** ** The data model *)

(** [type Device struct]; the field [Type] is spelled [Type_]. *)
Record Device := mkDevice {
  Name : string;
  Info_Name : string;
  Type_ : string;
}.

(** The command-line flags [main.go] reads.  [smartctlRescanInterval] is a
    [time.Duration], a count of nanoseconds. *)
Record Flags := mkFlags {
  smartctlRescanInterval : Z;
  smartctlDevices : list string;
  smartctlDeviceExclude : string;
  smartctlDeviceInclude : string;
}.

(** [time.Second]. *)
Definition Second : Z := 1000000000.

(** ** The device filter *)

Section DeviceFilter.
Context `{!regexp.Engine}.

(** Modelled from the spec: the type [deviceFilter] is declared outside
    [main.go].  The filter is "configured with two optional regular
    expressions, exclude and include". *)
Record deviceFilter := mkDeviceFilter {
  exclude : option regexp.Regexp;
  include : option regexp.Regexp;
}.

(** Modelled from the spec: how [newDeviceFilter] reads a pattern, the
    function being declared outside [main.go].  Both flags default to the
    empty string, which leaves the pattern unset. *)
Definition compileFlag (pattern : string) : option regexp.Regexp :=
  if decide (pattern = "") then None else Some (regexp.MustCompile pattern).

(** Modelled from the spec: [newDeviceFilter(exclude, include)], declared
    outside [main.go]. *)
Definition newDeviceFilter (excludePattern includePattern : string)
    : deviceFilter :=
  {| exclude := compileFlag excludePattern;
     include := compileFlag includePattern |}.

(** Modelled from the spec: the method [ignored], declared outside
    [main.go].  "If exclude is set, a name is ignored when it matches
    exclude.  If include is set, a name is ignored when it does not match
    include.  If neither is set, nothing is ignored." *)
Definition ignored (f : deviceFilter) (name : string) : bool :=
  match exclude f with
  | Some re => regexp.MatchString re name
  | None => false
  end ||
  match include f with
  | Some re => negb (regexp.MatchString re name)
  | None => false
  end.

End DeviceFilter.

(** ** [scanDevices] *)

(** Reading a Go [map[string]bool]: a missing key reads as [false]. *)
Definition mapIndex (m : gmap string bool) (key : string) : bool :=
  default false (m !! key).

Section Discovery.
Context {R : Type} `{!gjson.Result R} `{!regexp.Engine}.

(** [strings.TrimSpace], and the two helpers of the repository that
    [scanDevices] calls and [main.go] does not define. *)
Variable TrimSpace : string → string.
Variable getDiskName : string → string → string.
Variable formatDevices : R → list Device.

(** The key under which an entry of a listing is recorded and looked up in
    [isExists]. *)
Definition infoKey (d : R) : string :=
  TrimSpace (gjson.String (gjson.Get d "info_name")).

(** [listing.Get("devices").Array()]: the entries of a listing. *)
Definition entries (listing : R) : list R :=
  gjson.Array (gjson.Get listing "devices").

(** The test of the second loop: is the entry's key recorded in
    [isExists]? *)
Definition skipped (isExists : gmap string bool) (d : R) : bool :=
  mapIndex isExists (infoKey d).

(** The [Device] the first loop builds for an entry of the base pass. *)
Definition baseDevice (d : R) : Device :=
  let deviceName :=
    getDiskName (TrimSpace (gjson.String (gjson.Get d "name")))
                (TrimSpace (gjson.String (gjson.Get d "info_name"))) in
  {| Name := gjson.String (gjson.Get d "name");
     Info_Name := deviceName;
     Type_ := gjson.String (gjson.Get d "type") |}.

(** Body of the first loop, over the base pass: records the entry in
    [isExists] and appends its [Device]. *)
Definition baseStep (st : gmap string bool * list Device) (d : R)
    : gmap string bool * list Device :=
  let '(isExists, scanDevices) := st in
  (<[infoKey d := true]> isExists, scanDevices ++ [baseDevice d]).

(** Body of the second loop, over the raid pass: [continue] when the entry
    is in [isExists], append its expansion otherwise. *)
Definition raidStep (isExists : gmap string bool)
    (scanDevices : list Device) (d : R) : list Device :=
  if skipped isExists d
  then scanDevices
  else scanDevices ++ formatDevices d.

(** Body of the third loop: keep the devices the filter does not ignore. *)
Definition filterStep (filter : deviceFilter)
    (scanDeviceResult : list Device) (d : Device) : list Device :=
  if ignored filter (Info_Name d)
  then scanDeviceResult
  else scanDeviceResult ++ [d].

(** The state after the first loop. *)
Definition baseLoop (baseDevices : R) : gmap string bool * list Device :=
  foldl baseStep (∅, []) (entries baseDevices).

(** The slice [scanDevices] after the first two loops: the candidates. *)
Definition candidates (baseDevices raidDevices : R) : list Device :=
  let '(isExists, scanDevices) := baseLoop baseDevices in
  foldl (raidStep isExists) scanDevices (entries raidDevices).

(** [scanDevices(logger)], given the flags and the two listings
    [readSMARTctlDevices(logger)] and
    [readSMARTctlDevices(logger, "-d", "sat")]. *)
Definition scanDevices (flags : Flags) (baseDevices raidDevices : R)
    : list Device :=
  let filter := newDeviceFilter (smartctlDeviceExclude flags)
                                (smartctlDeviceInclude flags) in
  foldl (filterStep filter) [] (candidates baseDevices raidDevices).

End Discovery.

(** ** [filterDevices] *)

(** The inner loop of [filterDevices] for one device [d]: the first entry of
    [filters] that [d.Info_Name] contains appends [d] and breaks. *)
Fixpoint filterLoop (d : Device) (filters : list string)
    (filtered : list Device) : list Device :=
  match filters with
  | [] => filtered
  | filter :: rest =>
      if strings.Contains (Info_Name d) filter
      then filtered ++ [d]
      else filterLoop d rest filtered
  end.

(** [filterDevices(logger, devices, filters)]; [filtered] starts as the nil
    slice. *)
Definition filterDevices (devices : list Device) (filters : list string)
    : list Device :=
  foldl (λ filtered d, filterLoop d filters filtered) [] devices.

(** ** [Collect] *)

Section Collect.
Context {R : Type} `{!gjson.Result R}.

(** [prometheus.Metric], and the summary metric
    [prometheus.MustNewConstMetric(metricDeviceCount, prometheus.GaugeValue,
    float64(n))] of a slice length [n]. *)
Context {Metric : Type}.
Variable deviceCountMetric : nat → Metric.

(** [readData(logger, device)] runs the external tool or answers from its
    cache: it reads and updates a state [World] outside the collector. *)
Context {World : Type}.
Variable readData : World → Device → R * World.

(** [SMARTctlInfo] with [NewSMARTctlInfo(ch)], [SetJSON] and [Collect], and
    [NewSMARTctl(logger, json, ch).Collect()]; what the last two send on
    [ch] is given as a list. *)
Context {SMARTctlInfo : Type}.
Variable NewSMARTctlInfo : SMARTctlInfo.
Variable SetJSON : SMARTctlInfo → R → SMARTctlInfo.
Variable infoCollect : SMARTctlInfo → list Metric.
Variable smartCollect : R → list Metric.

(** What the loop of [Collect] carries: the outside world, [info], and the
    metrics sent on [ch] so far. *)
Record collectState := mkCollectState {
  world : World;
  info : SMARTctlInfo;
  ch : list Metric;
}.
#[global] Arguments collectState : clear implicits.

(** Body of the loop of [Collect]. *)
Definition collectStep (st : collectState) (device : Device) : collectState :=
  let '(json, w) := readData (world st) device in
  if gjson.Exists json
  then {| world := w;
          info := SetJSON (info st) json;
          ch := ch st ++ smartCollect json |}
  else {| world := w; info := info st; ch := ch st |}.

(** [Collect(ch)] between [i.mutex.Lock()] and [i.mutex.Unlock()], on the
    inventory [Devices] it finds there: the metrics sent, in order, and the
    world it leaves. *)
Definition Collect (Devices : list Device) (w : World)
    : list Metric * World :=
  let st := foldl collectStep
              {| world := w; info := NewSMARTctlInfo; ch := [] |} Devices in
  let ch := ch st ++ [deviceCountMetric (length Devices)] in
  (ch ++ infoCollect (info st), world st).

End Collect.

(** ** The collector, its two goroutines and [main] *)

(** The shared fields of [SMARTctlManagerCollector]: the inventory and its
    [sync.Mutex] ([true] when locked). *)
Record SMARTctlManagerCollector := mkCollector {
  Devices : list Device;
  mutex : bool;
}.

(** Where the goroutine of [RescanForDevices] stands. *)
Inductive RescanPC :=
| RSleep                            (* in [time.Sleep], top of the loop *)
| RLock (devices : list Device)     (* [scanDevices] returned; at [Lock()] *)
| RAssign (devices : list Device)   (* at [i.Devices = devices] *)
| RUnlock.                          (* at [Unlock()] *)

(** Where one call of [Collect] stands.  [seen] are the devices the loop has
    visited, [rest] those still ahead in the slice taken by [range]. *)
Inductive CollectPC :=
| CLock                                   (* at [Lock()] *)
| CRange                                  (* at [range i.Devices] *)
| CLoop (seen rest : list Device)         (* in the loop *)
| CCount (seen : list Device)             (* at [len(i.Devices)] *)
| CUnlock (seen : list Device) (n : nat)  (* count [n] sent; at [Unlock()] *)
| CDone (seen : list Device) (n : nat).   (* returned *)

(** The process: the collector, the rescan goroutine when [main] started it,
    the calls of [Collect] made so far, and the number of discovery passes
    run so far. *)
Record System := mkSystem {
  collector : SMARTctlManagerCollector;
  rescanner : option RescanPC;
  passes : list CollectPC;
  scans : nat;
}.

(** What the scheduler may do next: accept a scrape (a new call of
    [Collect]), run the rescan goroutine for a step, or run the [i]-th call
    of [Collect] for a step. *)
Inductive Choice :=
| Scrape
| Rescan
| Pass (i : nat).

Section Process.
Context {R : Type} `{!gjson.Result R} `{!regexp.Engine}.
Variable TrimSpace : string → string.
Variable getDiskName : string → string → string.
Variable formatDevices : R → list Device.

(** [readSMARTctlDevices(logger, args...)]: the listing the external tool
    gives, for the given arguments, during discovery pass number [k]. *)
Variable readSMARTctlDevices : nat → list string → R.
Variable flags : Flags.

(** The result of the [k]-th call of [scanDevices]. *)
Definition scanDevicesAt (k : nat) : list Device :=
  scanDevices TrimSpace getDiskName formatDevices flags
    (readSMARTctlDevices k [])
    (readSMARTctlDevices k ["-d"; "sat"]).

(** One step of [RescanForDevices]; [None] when blocked in [Lock()]. *)
Definition rescanStep (c : SMARTctlManagerCollector) (n : nat)
    (pc : RescanPC) : option (SMARTctlManagerCollector * nat * RescanPC) :=
  match pc with
  | RSleep => Some (c, S n, RLock (scanDevicesAt n))
  | RLock devices =>
      if mutex c then None
      else Some ({| Devices := Devices c; mutex := true |}, n, RAssign devices)
  | RAssign devices =>
      Some ({| Devices := devices; mutex := mutex c |}, n, RUnlock)
  | RUnlock =>
      Some ({| Devices := Devices c; mutex := false |}, n, RSleep)
  end.

(** One step of a call of [Collect]; [None] when blocked in [Lock()] or
    returned. *)
Definition passStep (c : SMARTctlManagerCollector) (pc : CollectPC)
    : option (SMARTctlManagerCollector * CollectPC) :=
  match pc with
  | CLock =>
      if mutex c then None
      else Some ({| Devices := Devices c; mutex := true |}, CRange)
  | CRange => Some (c, CLoop [] (Devices c))
  | CLoop seen (device :: rest) => Some (c, CLoop (seen ++ [device]) rest)
  | CLoop seen [] => Some (c, CCount seen)
  | CCount seen => Some (c, CUnlock seen (length (Devices c)))
  | CUnlock seen n =>
      Some ({| Devices := Devices c; mutex := false |}, CDone seen n)
  | CDone _ _ => None
  end.

(** One step of the process under the scheduler's choice. *)
Definition step (s : System) (choice : Choice) : option System :=
  match choice with
  | Scrape =>
      Some {| collector := collector s; rescanner := rescanner s;
              passes := passes s ++ [CLock]; scans := scans s |}
  | Rescan =>
      pc ← rescanner s;
      '(c, n, pc') ← rescanStep (collector s) (scans s) pc;
      Some {| collector := c; rescanner := Some pc';
              passes := passes s; scans := n |}
  | Pass i =>
      pc ← passes s !! i;
      '(c, pc') ← passStep (collector s) pc;
      Some {| collector := c; rescanner := rescanner s;
              passes := <[i := pc']> (passes s); scans := scans s |}
  end.

(** A run under a schedule; [None] when the schedule picks a goroutine that
    cannot move. *)
Fixpoint run (s : System) (schedule : list Choice) : option System :=
  match schedule with
  | [] => Some s
  | choice :: schedule' => s' ← step s choice; run s' schedule'
  end.

(** The inventory [main] builds: the first discovery pass, narrowed by the
    explicit devices when there are any. *)
Definition startupDevices : list Device :=
  let devices := scanDevicesAt 0 in
  if bool_decide (0 < length (smartctlDevices flags))%nat
  then filterDevices devices (smartctlDevices flags)
  else devices.

(** The process as [main] leaves it when it starts serving: the collector
    holds the start-up inventory, and the rescan goroutine runs when the
    interval is at least a second. *)
Definition main : System :=
  {| collector := {| Devices := startupDevices; mutex := false |};
     rescanner :=
       if bool_decide (Second ≤ smartctlRescanInterval flags)%Z
       then Some RSleep else None;
     passes := [];
     scans := 1 |}.

End Process.

End exporter.

Import exporter.

(** * Part II: the vocabulary of the properties *)

Global Instance Device_eq_dec : EqDecision Device.
Proof. solve_decision. Defined.

(** [sub] occurs inside [s]. *)
Definition substring_of (sub s : string) : Prop :=
  ∃ pre post : string, s = pre +:+ sub +:+ post.

(** A device is allowed by an allowlist when its canonical name contains one
    of the entries. *)
Definition allowed (filters : list string) (d : Device) : Prop :=
  Exists (λ filter, substring_of filter (Info_Name d)) filters.

(** ** Discovery *)

Section DiscoverySpec.
Context {R : Type} `{!gjson.Result R} `{!regexp.Engine}.
Variable TrimSpace : string → string.
Variable getDiskName : string → string → string.
Variable formatDevices : R → list Device.

Local Abbreviation infoKey := (infoKey TrimSpace).
Local Abbreviation baseDevice := (baseDevice TrimSpace getDiskName).
Local Abbreviation scanDevices := (scanDevices TrimSpace getDiskName formatDevices).

(** The entries of the raid pass whose key no entry of the base pass has. *)
Definition raidOnly (baseDevices raidDevices : R) : list R :=
  filter (λ d, infoKey d ∉ infoKey <$> entries baseDevices)
         (entries raidDevices).

(** The filter built from the flags, and the devices it keeps. *)
Definition flagFilter (flags : Flags) : deviceFilter :=
  newDeviceFilter (smartctlDeviceExclude flags) (smartctlDeviceInclude flags).

Definition kept (flags : Flags) (d : Device) : Prop :=
  ignored (flagFilter flags) (Info_Name d) = false.

Global Instance kept_dec flags d : Decision (kept flags d).
Proof. unfold kept. apply _. Defined.

(** The devices of a list that carry the canonical name [name]. *)
Definition named (name : string) (devices : list Device) : list Device :=
  filter (λ d, Info_Name d = name) devices.

(** The claim of dedup precedence as the specification words it: a name
    listed in both passes is carried by exactly one produced device, the
    base-pass one. *)
Definition stated_dedup_precedence (flags : Flags)
    (baseDevices raidDevices : R) : Prop :=
  ∀ e, e ∈ entries baseDevices →
       infoKey e ∈ infoKey <$> entries raidDevices →
       named (Info_Name (baseDevice e)) (scanDevices flags baseDevices raidDevices)
         = [baseDevice e].

(** Does [name] match the regular expression [pattern]? *)
Definition matches (pattern name : string) : bool :=
  regexp.MatchString (regexp.MustCompile pattern) name.

(** The filter policy as the specification words it, for the verdict
    [verdict] on names and one name. *)
Definition stated_filter_policy (verdict : string → bool) (flags : Flags)
    (name : string) : Prop :=
  (smartctlDeviceExclude flags ≠ "" →
     (verdict name = true ↔
      matches (smartctlDeviceExclude flags) name = true)) ∧
  (smartctlDeviceInclude flags ≠ "" →
     (verdict name = true ↔
      matches (smartctlDeviceInclude flags) name = false)) ∧
  (smartctlDeviceExclude flags = "" → smartctlDeviceInclude flags = "" →
     verdict name = false).

(** The entries of the base pass whose device the filter keeps. *)
Definition keptBase (flags : Flags) (baseDevices : R) : list R :=
  filter (λ e, kept flags (baseDevice e)) (entries baseDevices).

(** The devices of the expansion of a raid-pass entry that the filter
    keeps. *)
Definition keptExpansion (flags : Flags) (x : R) : list Device :=
  filter (kept flags) (formatDevices x).

(** The entries of the raid pass that contribute a device to the result:
    not skipped, and with a device the filter keeps. *)
Definition liveRaid (flags : Flags) (baseDevices raidDevices : R) : list R :=
  filter (λ x, keptExpansion flags x ≠ []) (raidOnly baseDevices raidDevices).

(** Every device a pass can yield, each with the entry it is built from. *)
Definition yielded (baseDevices raidDevices : R) : list (R * Device) :=
  ((λ e, (e, baseDevice e)) <$> entries baseDevices) ++
  (entries raidDevices ≫= λ x, (λ d, (x, d)) <$> formatDevices x).

(** The canonical names the helpers derive follow the reported identity:
    two kept devices with one canonical name come from entries with one
    trimmed [info_name]. *)
Definition namesFollowKeys (flags : Flags) (baseDevices raidDevices : R)
    : Prop :=
  ∀ p q, p ∈ yielded baseDevices raidDevices →
         q ∈ yielded baseDevices raidDevices →
         kept flags p.2 → kept flags q.2 →
         Info_Name p.2 = Info_Name q.2 → infoKey p.1 = infoKey q.1.

End DiscoverySpec.

(** ** Collection *)

Section CollectSpec.
Context {R : Type} `{!gjson.Result R}.
Context {Metric World SMARTctlInfo : Type}.
Variable deviceCountMetric : nat → Metric.
Variable readData : World → Device → R * World.
Variable SetJSON : SMARTctlInfo → R → SMARTctlInfo.
Variable smartCollect : R → list Metric.

(** The results [readData] returns for the devices of a pass, in order. *)
Fixpoint outcomes (w : World) (devices : list Device) : list R :=
  match devices with
  | [] => []
  | device :: devices' =>
      (readData w device).1 :: outcomes (readData w device).2 devices'
  end.

(** The world after the reads of a pass. *)
Definition worldAfter (w : World) (devices : list Device) : World :=
  foldl (λ w device, (readData w device).2) w devices.

(** What a pass sends for one device, given the result of its read. *)
Definition emitted (json : R) : list Metric :=
  if gjson.Exists json then smartCollect json else [].

(** [info] after the results of a pass: only results that exist reach
    [SetJSON]. *)
Definition infoAfter (info : SMARTctlInfo) (results : list R) : SMARTctlInfo :=
  foldl (λ info json, if gjson.Exists json then SetJSON info json else info)
        info results.

(** A summary metric: one that [Collect] builds from a device count. *)
Definition isDeviceCount (m : Metric) : Prop :=
  ∃ n, m = deviceCountMetric n.

End CollectSpec.

(** ** The process *)

(** Is the goroutine between its [Lock()] and its [Unlock()]? *)
Definition rescanHolds (pc : RescanPC) : bool :=
  match pc with
  | RAssign _ | RUnlock => true
  | RSleep | RLock _ => false
  end.

Definition passHolds (pc : CollectPC) : bool :=
  match pc with
  | CRange | CLoop _ _ | CCount _ | CUnlock _ _ => true
  | CLock | CDone _ _ => false
  end.

(** The number of calls of [Collect] that hold the mutex. *)
Fixpoint holding (l : list CollectPC) : nat :=
  match l with
  | [] => 0
  | pc :: l' => (if passHolds pc then 1 else 0) + holding l'
  end.

(** The number of goroutines that hold the mutex. *)
Definition holders (s : System) : nat :=
  match rescanner s with
  | Some pc => if rescanHolds pc then 1 else 0
  | None => 0
  end + holding (passes s).

(** The device list a pass works on, once [range] has taken it: the devices
    visited followed by those still ahead. *)
Definition snapshot (pc : CollectPC) : option (list Device) :=
  match pc with
  | CLock | CRange => None
  | CLoop seen rest => Some (seen ++ rest)
  | CCount seen | CUnlock seen _ | CDone seen _ => Some seen
  end.

(** The device count a pass has sent. *)
Definition reported (pc : CollectPC) : option nat :=
  match pc with
  | CUnlock _ n | CDone _ n => Some n
  | _ => None
  end.

Section ProcessSpec.
Context {R : Type} `{!gjson.Result R} `{!regexp.Engine}.
Variable TrimSpace : string → string.
Variable getDiskName : string → string → string.
Variable formatDevices : R → list Device.
Variable readSMARTctlDevices : nat → list string → R.
Variable flags : Flags.

Local Abbreviation scanDevicesAt :=
  (scanDevicesAt TrimSpace getDiskName formatDevices readSMARTctlDevices flags).
Local Abbreviation startupDevices :=
  (startupDevices TrimSpace getDiskName formatDevices readSMARTctlDevices flags).

(** The inventories the collector can hold: the start-up inventory, then
    the result of each later discovery pass. *)
Definition inventoryAt (k : nat) : list Device :=
  match k with
  | 0 => startupDevices
  | S _ => scanDevicesAt k
  end.

(** What a pass in progress knows, against the inventory [devices] the
    collector holds after [n] discovery passes. *)
Definition passOk (devices : list Device) (n : nat) (pc : CollectPC) : Prop :=
  match pc with
  | CLock | CRange => True
  | CLoop seen rest => seen ++ rest = devices
  | CCount seen => seen = devices
  | CUnlock seen count => seen = devices ∧ count = length seen
  | CDone seen count =>
      count = length seen ∧ ∃ k, k < n ∧ seen = inventoryAt k
  end.

Record invariant (s : System) : Prop := mkInvariant {
  inv_mutex : holders s = if mutex (collector s) then 1 else 0;
  inv_devices : ∃ k, k < scans s ∧ Devices (collector s) = inventoryAt k;
  inv_rescan :
    match rescanner s with
    | Some (RLock devices) | Some (RAssign devices) =>
        2 ≤ scans s ∧ devices = scanDevicesAt (scans s - 1)
    | Some _ => True
    | None => scans s = 1 ∧ Devices (collector s) = startupDevices
    end;
  inv_passes : Forall (passOk (Devices (collector s)) (scans s)) (passes s);
}.

End ProcessSpec.

(** How many discovery passes the inventory lags behind: one more while
    the rescan goroutine carries a result it has not stored yet. *)
Definition inventoryLag (pc : option RescanPC) : nat :=
  match pc with
  | Some (RLock _) | Some (RAssign _) => 2
  | Some RSleep | Some RUnlock | None => 1
  end.

(** * Part III: concrete collaborators, for running the program *)

Module Fixture.

(** Listings as JSON trees; [Missing] is the result of [Get] on a key that
    is not there. *)
#[local] Unset Elimination Schemes.
Inductive json :=
| Missing
| Str (s : string)
| Arr (items : list json)
| Obj (fields : list (string * json)).
#[local] Set Elimination Schemes.

Definition jsonGet (j : json) (key : string) : json :=
  match j with
  | Obj fields =>
      match list_find (λ kv, kv.1 = key) fields with
      | Some (_, (_, v)) => v
      | None => Missing
      end
  | _ => Missing
  end.

Definition jsonArray (j : json) : list json :=
  match j with
  | Arr items => items
  | Missing => []
  | _ => [j]
  end.

(** [String()] of an array or object is its raw text in gjson; no example
    below takes it, and the empty string stands for it here. *)
Definition jsonString (j : json) : string :=
  match j with
  | Str s => s
  | _ => ""
  end.

Definition jsonExists (j : json) : bool :=
  match j with
  | Missing => false
  | _ => true
  end.

#[export] Instance json_result : gjson.Result json :=
  {| gjson.Get := jsonGet; gjson.Array := jsonArray;
     gjson.String := jsonString; gjson.Exists := jsonExists |}.

(** Regular expressions that are a literal, possibly anchored at the start
    by [^]: an anchored literal matches the names it is a prefix of, a bare
    literal the names it occurs in. *)
Definition MatchString (pattern name : string) : bool :=
  match pattern with
  | String "^"%char literal => strings.HasPrefix name literal
  | _ => strings.Contains name pattern
  end.

#[export] Instance literal_engine : regexp.Engine :=
  {| regexp.Regexp := string;
     regexp.MustCompile := λ pattern, pattern;
     regexp.MatchString := MatchString |}.

(** [strings.TrimSpace] on strings whose white space is ASCII. *)
Definition isSpace (c : ascii) : bool :=
  bool_decide (c ∈ [" "; "009"; "010"; "011"; "012"; "013"]%char).

Fixpoint trimLeft (s : string) : string :=
  match s with
  | String c s' => if isSpace c then trimLeft s' else s
  | EmptyString => EmptyString
  end.

Fixpoint trimRight (s : string) : string :=
  match s with
  | EmptyString => EmptyString
  | String c s' =>
      match trimRight s' with
      | EmptyString => if isSpace c then EmptyString else String c EmptyString
      | t => String c t
      end
  end.

Definition TrimSpace (s : string) : string := trimRight (trimLeft s).

(** One way to derive a canonical name: the reported identity without its
    [/dev/] prefix. *)
Definition getDiskName (name infoName : string) : string :=
  if strings.HasPrefix infoName "/dev/"
  then String.substring 5 (String.length infoName - 5) infoName
  else infoName.

(** One way to expand an entry of the raid pass: a single device, named
    like a base-pass device. *)
Definition formatDevices (d : json) : list Device :=
  [ {| Name := jsonString (jsonGet d "name");
       Info_Name := getDiskName (TrimSpace (jsonString (jsonGet d "name")))
                                (TrimSpace (jsonString (jsonGet d "info_name")));
       Type_ := jsonString (jsonGet d "type") |} ].

(** An entry of a listing and a listing, as the external tool prints them. *)
Definition entry (name infoName type : string) : json :=
  Obj [("name", Str name); ("info_name", Str infoName); ("type", Str type)].

Definition listing (entries : list json) : json :=
  Obj [("devices", Arr entries)].

(** No explicit devices, no patterns, rescan every ten minutes. *)
Definition defaultFlags : Flags :=
  {| smartctlRescanInterval := 600 * Second;
     smartctlDevices := [];
     smartctlDeviceExclude := "";
     smartctlDeviceInclude := "" |}.

End Fixture.

(** ** A concrete host *)

Module Host.
Import Fixture.

(** Entries of listings, as [smartctl --scan --json] reports devices. *)
Definition sda : json := entry "/dev/sda" "/dev/sda" "scsi".
Definition sdb : json := entry "/dev/sdb" "/dev/sdb" "scsi".
Definition sdc : json := entry "/dev/sdc" "/dev/sdc" "sat".
Definition loop0 : json := entry "/dev/loop0" "/dev/loop0" "scsi".
Definition loop1 : json := entry "/dev/loop1" "/dev/loop1" "scsi".

(** [--smartctl.device-exclude=^loop]. *)
Definition excludeLoop : Flags :=
  {| smartctlRescanInterval := 600 * Second;
     smartctlDevices := [];
     smartctlDeviceExclude := "^loop";
     smartctlDeviceInclude := "" |}.

(** Both patterns set: [--smartctl.device-exclude=^loop] and
    [--smartctl.device-include=^sd]. *)
Definition excludeLoopIncludeSd : Flags :=
  {| smartctlRescanInterval := 600 * Second;
     smartctlDevices := [];
     smartctlDeviceExclude := "^loop";
     smartctlDeviceInclude := "^sd" |}.

(** The external tool: every base pass lists sda and sdb; the raid pass
    lists sda at start-up and sda and sdc from then on. *)
Definition tool (k : nat) (args : list string) : json :=
  match args, k with
  | [], _ => listing [sda; sdb]
  | _ :: _, 0 => listing [sda]
  | _ :: _, S _ => listing [sda; sdc]
  end.

(** [--smartctl.device=sda]. *)
Definition explicitSda : Flags :=
  {| smartctlRescanInterval := 600 * Second;
     smartctlDevices := ["sda"];
     smartctlDeviceExclude := "";
     smartctlDeviceInclude := "" |}.

(** [--smartctl.rescan=999ms]. *)
Definition rescanOff : Flags :=
  {| smartctlRescanInterval := 999000000;
     smartctlDevices := [];
     smartctlDeviceExclude := "";
     smartctlDeviceInclude := "" |}.

Local Abbreviation process := (main TrimSpace getDiskName formatDevices tool).
Local Abbreviation runProcess := (run TrimSpace getDiskName formatDevices tool).

(** A first scrape takes the mutex and its slice; the rescan loop wakes up
    and discovers sdc while that pass visits its two devices; the pass
    returns, the rescan loop replaces the inventory, and a second scrape
    runs up to its [Unlock()]. *)
Definition interleaving : list Choice :=
  [Scrape; Pass 0; Pass 0; Rescan; Pass 0; Pass 0; Pass 0; Pass 0; Pass 0;
   Rescan; Rescan; Rescan;
   Scrape; Pass 1; Pass 1; Pass 1; Pass 1; Pass 1; Pass 1; Pass 1].

Definition afterInterleaving : System :=
  Eval vm_compute in
    default (process defaultFlags) (runProcess defaultFlags (process defaultFlags) interleaving).

(** Two scrapes with the rescan loop off. *)
Definition scrapesOnly : list Choice :=
  [Scrape; Pass 0; Pass 0; Pass 0; Scrape; Pass 0; Pass 0; Pass 0; Pass 0;
   Pass 1; Pass 1; Pass 1; Pass 1; Pass 1; Pass 1].

Definition afterScrapes : System :=
  Eval vm_compute in
    default (process rescanOff) (runProcess rescanOff (process rescanOff) scrapesOnly).

(** The process when the rescan loop stands at its first
    [i.Devices = devices]. *)
Definition atFirstReplace : System :=
  Eval vm_compute in
    default (process explicitSda)
      (runProcess explicitSda (process explicitSda) [Rescan; Rescan]).

(** What a collection pass sends, and what the external tool answers. *)

Inductive metric :=
| DeviceCount (n : nat)
| SmartStatus (device : string)
| SmartctlVersion (version : string).

(** What the external tool answers for each device path; no answer for a
    path means the read fails. *)
Definition answers : list (string * json) :=
  [("/dev/sda", Obj [("device", Str "/dev/sda"); ("version", Str "7.4")]);
   ("/dev/sdc", Obj [("device", Str "/dev/sdc"); ("version", Str "7.4")])].

Definition readAnswer (w : list (string * json)) (device : Device)
    : json * list (string * json) :=
  (match list_find (λ kv, kv.1 = Name device) w with
   | Some (_, (_, v)) => v
   | None => Missing
   end, w).

Definition firstJSON (info : option json) (j : json) : option json :=
  match info with
  | None => Some j
  | Some _ => info
  end.

Definition versionMetric (info : option json) : list metric :=
  match info with
  | Some j => [SmartctlVersion (jsonString (jsonGet j "version"))]
  | None => []
  end.

Definition statusMetric (j : json) : list metric :=
  [SmartStatus (jsonString (jsonGet j "device"))].

Definition inventory : list Device :=
  [mkDevice "/dev/sda" "sda" "scsi"; mkDevice "/dev/sdb" "sdb" "scsi";
   mkDevice "/dev/sdc" "sdc" "sat"].

End Host.

(** * Part IV: proofs *)

(** ** Facts about [strings] *)

Lemma string_app_cons c (s t : string) : String c s +:+ t = String c (s +:+ t).
Proof. reflexivity. Qed.

Lemma HasPrefix_spec s p :
  strings.HasPrefix s p = true ↔ ∃ post, s = p +:+ post.
Proof.
  revert s. induction p as [|c p IH]; intros s; simpl.
  - split; [intros _; by exists s | done].
  - destruct s as [|d s].
    + split; [done | intros [post H]; discriminate].
    + destruct (decide (c = d)) as [->|Hne].
      * rewrite IH. split; intros [post H]; exists post;
          rewrite ?string_app_cons in *; congruence.
      * split; [done | intros [post H]; rewrite string_app_cons in H; congruence].
Qed.

Lemma Contains_spec s sub :
  strings.Contains s sub = true ↔ substring_of sub s.
Proof.
  induction s as [|d s IH]; simpl.
  - rewrite orb_false_r, HasPrefix_spec. split.
    + intros [post H]. by exists "", post.
    + intros ([|c pre] & post & H); [by exists post | discriminate].
  - rewrite orb_true_iff, HasPrefix_spec, IH. split.
    + intros [[post H] | (pre & post & H)].
      * by exists "", post.
      * exists (String d pre), post. rewrite string_app_cons. by rewrite H.
    + intros ([|c pre] & post & H).
      * left. by exists post.
      * right. exists pre, post. rewrite string_app_cons in H. congruence.
Qed.

Global Instance substring_of_dec sub s : Decision (substring_of sub s).
Proof.
  refine (cast_if (decide (strings.Contains s sub = true)));
    by rewrite <- Contains_spec.
Defined.

Global Instance allowed_dec filters d : Decision (allowed filters d).
Proof. unfold allowed. apply _. Defined.

Lemma filterLoop_spec d filters filtered :
  filterLoop d filters filtered =
    if decide (allowed filters d) then filtered ++ [d] else filtered.
Proof.
  induction filters as [|f rest IH]; cbn [filterLoop].
  - destruct (decide (allowed [] d)) as [H|H]; [by apply Exists_nil in H | done].
  - destruct (strings.Contains (Info_Name d) f) eqn:E.
    + rewrite decide_True; [done |]. apply Exists_cons_hd. by apply Contains_spec.
    + rewrite IH. destruct (decide (allowed rest d)) as [H|H].
      * rewrite decide_True; [done | by apply Exists_cons_tl].
      * rewrite decide_False; [done |]. unfold allowed. rewrite Exists_cons.
        intros [H' | H']; [| done]. apply Contains_spec in H'. congruence.
Qed.

Lemma filterDevices_from devices filters acc :
  foldl (λ filtered d, filterLoop d filters filtered) acc devices =
    acc ++ filter (allowed filters) devices.
Proof.
  revert acc. induction devices as [|d devices IH]; intros acc; simpl.
  - by rewrite app_nil_r.
  - rewrite IH, filterLoop_spec, filter_cons.
    destruct (decide (allowed filters d)); [by rewrite <- app_assoc | done].
Qed.

Lemma filterDevices_filter devices filters :
  filterDevices devices filters = filter (allowed filters) devices.
Proof. unfold filterDevices. by rewrite filterDevices_from. Qed.

(** C5: for every device sequence and every allowlist, non-empty or not, the
    restricted result is the input with some devices left out, in the same
    order, and a device of the input is retained exactly when its canonical
    name contains an entry of the allowlist as a substring. *)
Theorem filterDevices_allowlist (devices : list Device) (filters : list string) :
  filterDevices devices filters `sublist_of` devices ∧
  filterDevices devices filters = filter (allowed filters) devices ∧
  ∀ d, d ∈ filterDevices devices filters ↔
       d ∈ devices ∧
       ∃ entry, entry ∈ filters ∧ substring_of entry (Info_Name d).
Proof.
  rewrite filterDevices_filter. split; [apply sublist_filter |].
  split; [done |]. intros d. rewrite list_elem_of_filter.
  unfold allowed. rewrite Exists_exists. tauto.
Qed.

(** The match is on substrings: [sd] retains both [sda] and [sdb]; it is not
    a match of regular expressions: [sd.] retains neither. *)
Example filterDevices_substring :
  Info_Name <$> filterDevices
    [mkDevice "/dev/sda" "sda" "scsi"; mkDevice "/dev/nvme0" "nvme0" "nvme";
     mkDevice "/dev/sdb" "sdb" "scsi"] ["sd"] = ["sda"; "sdb"].
Proof. reflexivity. Qed.

Example filterDevices_not_regexp :
  filterDevices
    [mkDevice "/dev/sda" "sda" "scsi"; mkDevice "/dev/sdb" "sdb" "scsi"]
    ["sd."] = [].
Proof. reflexivity. Qed.

Example filterDevices_explicit_sda :
  Info_Name <$> filterDevices
    [mkDevice "/dev/sda" "sda" "scsi"; mkDevice "/dev/sdb" "sdb" "scsi"]
    ["sda"] = ["sda"].
Proof. reflexivity. Qed.

(** ** Discovery *)

Section DiscoveryFacts.
Context {R : Type} `{!gjson.Result R} `{!regexp.Engine}.
Variable TrimSpace : string → string.
Variable getDiskName : string → string → string.
Variable formatDevices : R → list Device.

Local Abbreviation infoKey := (infoKey TrimSpace).
Local Abbreviation baseDevice := (baseDevice TrimSpace getDiskName).
Local Abbreviation baseStep := (baseStep TrimSpace getDiskName).
Local Abbreviation baseLoop := (baseLoop TrimSpace getDiskName).
Local Abbreviation raidStep := (raidStep TrimSpace formatDevices).
Local Abbreviation skipped := (skipped TrimSpace).
Local Abbreviation candidates := (candidates TrimSpace getDiskName formatDevices).
Local Abbreviation scanDevices := (scanDevices TrimSpace getDiskName formatDevices).
Local Abbreviation raidOnly := (raidOnly TrimSpace).
Local Abbreviation keptBase := (keptBase TrimSpace getDiskName).
Local Abbreviation keptExpansion := (keptExpansion formatDevices).
Local Abbreviation liveRaid := (liveRaid TrimSpace formatDevices).
Local Abbreviation yielded := (yielded TrimSpace getDiskName formatDevices).
Local Abbreviation namesFollowKeys :=
  (namesFollowKeys TrimSpace getDiskName formatDevices).

Lemma baseStep_foldl es isExists scanned :
  foldl baseStep (isExists, scanned) es =
    (foldl (λ m e, <[infoKey e := true]> m) isExists es,
     scanned ++ (baseDevice <$> es)).
Proof.
  revert isExists scanned. induction es as [|e es IH]; intros m acc; simpl.
  - by rewrite app_nil_r.
  - rewrite IH. by rewrite <- app_assoc.
Qed.

Lemma baseStep_keys (g : string → string → string) es isExists scanned :
  (foldl (exporter.baseStep TrimSpace g) (isExists, scanned) es).1 =
    foldl (λ m e, <[infoKey e := true]> m) isExists es.
Proof.
  revert isExists scanned. induction es as [|e es IH]; intros m acc; simpl;
    [done | apply IH].
Qed.

Lemma mapIndex_recorded es (m : gmap string bool) key :
  mapIndex (foldl (λ m e, <[infoKey e := true]> m) m es) key = true ↔
    mapIndex m key = true ∨ key ∈ infoKey <$> es.
Proof.
  revert m. induction es as [|e es IH]; intros m; simpl.
  - rewrite elem_of_nil. tauto.
  - rewrite IH, elem_of_cons. unfold mapIndex.
    destruct (decide (infoKey e = key)) as [->|Hne].
    + rewrite lookup_insert_eq. simpl. tauto.
    + rewrite lookup_insert_ne by done. split; [tauto |].
      intros [? | [? | ?]]; [tauto | congruence | tauto].
Qed.

Lemma skipped_iff baseDevices d :
  skipped (baseLoop baseDevices).1 d = true ↔
    infoKey d ∈ infoKey <$> entries baseDevices.
Proof.
  unfold skipped, baseLoop. rewrite baseStep_foldl. simpl.
  rewrite mapIndex_recorded. unfold mapIndex. rewrite lookup_empty. simpl.
  split; [intros [? | ?]; [done | tauto] | tauto].
Qed.

Lemma raidStep_foldl (P : R → Prop) `{!∀ d, Decision (P d)}
    isExists es scanned :
  (∀ d, skipped isExists d = true ↔ ¬ P d) →
  foldl (raidStep isExists) scanned es =
    scanned ++ (filter P es ≫= formatDevices).
Proof.
  intros HP. revert scanned. induction es as [|e es IH]; intros acc; simpl.
  - by rewrite app_nil_r.
  - rewrite IH, filter_cons. unfold exporter.raidStep at 1.
    destruct (skipped isExists e) eqn:E.
    + apply HP in E. by rewrite decide_False.
    + rewrite decide_True; [by rewrite bind_cons, app_assoc |].
      destruct (decide (P e)) as [|Hn]; [done |]. apply HP in Hn. congruence.
Qed.

Lemma candidates_eq baseDevices raidDevices :
  candidates baseDevices raidDevices =
    (baseDevice <$> entries baseDevices) ++
    (raidOnly baseDevices raidDevices ≫= formatDevices).
Proof.
  unfold candidates, raidOnly.
  pose proof (skipped_iff baseDevices) as Hs.
  unfold baseLoop in *. rewrite baseStep_foldl in *. simpl in *.
  apply raidStep_foldl. intros d. rewrite Hs. split; [tauto |].
  intros Hn. by destruct (decide (infoKey d ∈ infoKey <$> entries baseDevices)).
Qed.

Lemma filterStep_foldl filter devices acc :
  foldl (filterStep filter) acc devices =
    acc ++ base.filter (λ d, ignored filter (Info_Name d) = false) devices.
Proof.
  revert acc. induction devices as [|d devices IH]; intros acc; simpl.
  - by rewrite app_nil_r.
  - rewrite IH, filter_cons. unfold filterStep at 1.
    destruct (ignored filter (Info_Name d)); case_decide; try done.
    by rewrite <- app_assoc.
Qed.

Lemma scanDevices_eq flags baseDevices raidDevices :
  scanDevices flags baseDevices raidDevices =
    filter (kept flags) (candidates baseDevices raidDevices).
Proof. unfold exporter.scanDevices. by rewrite filterStep_foldl. Qed.

Lemma filter_none {A} (P : A → Prop) `{!∀ x, Decision (P x)} (l : list A) :
  (∀ y, y ∈ l → ¬ P y) → filter P l = [].
Proof.
  induction l as [|a l IH]; intros Hl; [done |].
  rewrite filter_cons_False; [| apply Hl; left].
  apply IH. intros y Hy. apply Hl. by right.
Qed.

(** A sequence whose elements have pairwise distinct images under [f]
    holds, for each of its elements, that element alone with its image. *)
Lemma filter_same_image {A B} `{!EqDecision B} (f : A → B) (l : list A) x :
  NoDup (f <$> l) → x ∈ l → filter (λ y, f y = f x) l = [x].
Proof.
  induction l as [|a l IH]; intros Hnd Hin; [by apply elem_of_nil in Hin |].
  rewrite fmap_cons, NoDup_cons in Hnd. destruct Hnd as [Hfa Hnd].
  rewrite filter_cons. apply elem_of_cons in Hin as [<- | Hin].
  - rewrite decide_True by done. f_equal.
    apply filter_none. intros y Hy Heq.
    apply Hfa. rewrite <- Heq. by apply list_elem_of_fmap_2.
  - rewrite decide_False; [by apply IH |].
    intros Heq. apply Hfa. rewrite Heq. by apply list_elem_of_fmap_2.
Qed.

Lemma named_filter (P : Device → Prop) `{!∀ d, Decision (P d)} name devices :
  named name (filter P devices) = filter P (named name devices).
Proof.
  unfold named. rewrite !list_filter_filter. apply list_filter_iff. tauto.
Qed.

(** C10: the second loop skips an entry of the raid pass exactly when its
    trimmed raw [info_name] is the trimmed raw [info_name] of an entry of the
    base pass.  The set of recorded keys is the same whatever canonical names
    [getDiskName] derives for the base-pass devices, and the candidates are
    the base-pass devices followed by the expansions of the entries that are
    not skipped. *)
Theorem raid_dedup_keyed_on_raw_info_name
    (getDiskName' : string → string → string) (baseDevices raidDevices d : R) :
  (skipped (baseLoop baseDevices).1 d = true ↔
     ∃ e, e ∈ entries baseDevices ∧
          TrimSpace (gjson.String (gjson.Get e "info_name")) =
          TrimSpace (gjson.String (gjson.Get d "info_name"))) ∧
  (exporter.baseLoop TrimSpace getDiskName' baseDevices).1 =
    (baseLoop baseDevices).1 ∧
  candidates baseDevices raidDevices =
    (baseDevice <$> entries baseDevices) ++
    (filter (λ d, skipped (baseLoop baseDevices).1 d = false)
            (entries raidDevices) ≫= formatDevices).
Proof.
  split; [| split].
  - rewrite skipped_iff, list_elem_of_fmap. unfold exporter.infoKey.
    split.
    + intros (e & Heq & Hin). exists e. split; [exact Hin | by rewrite Heq].
    + intros (e & Hin & Heq). exists e. split; [by rewrite Heq | exact Hin].
  - unfold exporter.baseLoop. by rewrite !baseStep_keys.
  - rewrite candidates_eq. do 2 f_equal. unfold raidOnly.
    apply list_filter_iff. intros x. rewrite <- skipped_iff.
    by destruct (skipped _ x).
Qed.

(** C2, amended: the result is the kept base-pass devices, in listing order,
    followed by the kept devices expanded from the raid-pass entries whose
    trimmed [info_name] no base-pass entry has; a raid-pass entry that shares
    its trimmed [info_name] with a base-pass entry is not among those.  When
    the candidates carry pairwise distinct canonical names and the filter
    keeps the device of a base-pass entry, the result holds exactly one
    device with that canonical name, the base-pass one. *)
Theorem dedup_precedence flags (baseDevices raidDevices : R) :
  scanDevices flags baseDevices raidDevices =
    filter (kept flags) (baseDevice <$> entries baseDevices) ++
    filter (kept flags) (raidOnly baseDevices raidDevices ≫= formatDevices) ∧
  (∀ d, infoKey d ∈ infoKey <$> entries baseDevices →
        d ∉ raidOnly baseDevices raidDevices) ∧
  (∀ e, e ∈ entries baseDevices →
        NoDup (Info_Name <$> candidates baseDevices raidDevices) →
        kept flags (baseDevice e) →
        named (Info_Name (baseDevice e))
              (scanDevices flags baseDevices raidDevices) = [baseDevice e]).
Proof.
  split; [| split].
  - by rewrite scanDevices_eq, candidates_eq, filter_app.
  - intros d Hd Hin. unfold raidOnly in Hin.
    apply list_elem_of_filter in Hin. tauto.
  - intros e He Hnd Hkept. rewrite scanDevices_eq, named_filter.
    unfold named. rewrite filter_same_image; [| done |].
    + rewrite filter_cons, decide_True by done. by rewrite filter_nil.
    + rewrite candidates_eq. apply elem_of_app. left.
      by apply list_elem_of_fmap_2.
Qed.

Lemma names_filter_fmap {A} (P : Device → Prop) `{!∀ d, Decision (P d)}
    (g : A → Device) (l : list A) :
  Info_Name <$> filter P (g <$> l) =
    l ≫= (λ e, Info_Name <$> filter P [g e]).
Proof.
  induction l as [|a l IH]; [done |].
  rewrite fmap_cons, bind_cons, <- IH, !filter_cons.
  by destruct (decide (P (g a))).
Qed.

Lemma names_filter_bind {A} (P : Device → Prop) `{!∀ d, Decision (P d)}
    (f : A → list Device) (l : list A) :
  Info_Name <$> filter P (l ≫= f) = l ≫= (λ x, Info_Name <$> filter P (f x)).
Proof.
  induction l as [|a l IH]; [done |].
  by rewrite !bind_cons, filter_app, fmap_app, IH.
Qed.

(** A concatenation of blocks has no repeated element when each block has
    none and two blocks that share an element have one key, the keys of the
    blocks that are not empty being pairwise distinct. *)
Lemma NoDup_bind_by_key {A B K} (key : A → K) (f : A → list B)
    (P : A → Prop) `{!∀ x, Decision (P x)} (l : list A) :
  (∀ x b, x ∈ l → b ∈ f x → P x) →
  NoDup (key <$> filter P l) →
  (∀ x, x ∈ l → NoDup (f x)) →
  (∀ x y b, x ∈ l → y ∈ l → b ∈ f x → b ∈ f y → key x = key y) →
  NoDup (l ≫= f).
Proof.
  induction l as [|a l IH]; intros HP Hkeys Hblock Hshare; [constructor |].
  rewrite bind_cons. apply NoDup_app. split; [apply Hblock; by left |].
  assert (NoDup (key <$> filter P l)) as Hkeys'.
  { rewrite filter_cons in Hkeys. destruct (decide (P a)); [| done].
    rewrite fmap_cons in Hkeys. by apply NoDup_cons in Hkeys as [_ ?]. }
  split.
  - intros b Hb Hb'. apply list_elem_of_bind in Hb' as (y & Hby & Hy).
    assert (P a) as Ha by (apply (HP a b); [by left | done]).
    assert (P y) as Hpy by (apply (HP y b); [by right | done]).
    rewrite filter_cons, decide_True, fmap_cons in Hkeys by done.
    apply NoDup_cons in Hkeys as [Hnotin _]. apply Hnotin.
    rewrite (Hshare a y b); [| by left | by right | done | done].
    apply list_elem_of_fmap_2. by apply list_elem_of_filter.
  - apply IH; [| done | |].
    + intros x b Hx. apply HP. by right.
    + intros x Hx. apply Hblock. by right.
    + intros x y b Hx Hy. apply Hshare; by right.
Qed.

Lemma yielded_base (baseDevices raidDevices e : R) :
  e ∈ entries baseDevices →
  (e, baseDevice e) ∈ yielded baseDevices raidDevices.
Proof.
  intros He. apply elem_of_app. left.
  by apply (list_elem_of_fmap_2 (λ e, (e, baseDevice e))).
Qed.

Lemma yielded_raid (baseDevices raidDevices x : R) d :
  x ∈ entries raidDevices → d ∈ formatDevices x →
  (x, d) ∈ yielded baseDevices raidDevices.
Proof.
  intros Hx Hd. apply elem_of_app. right. apply list_elem_of_bind.
  exists x. split; [| done]. by apply (list_elem_of_fmap_2 (λ d, (x, d))).
Qed.

Lemma namesFollowKeys_Forall flags (baseDevices raidDevices : R) :
  Forall (λ p, Forall (λ q, kept flags p.2 → kept flags q.2 →
                            Info_Name p.2 = Info_Name q.2 →
                            infoKey p.1 = infoKey q.1)
                 (yielded baseDevices raidDevices))
         (yielded baseDevices raidDevices) →
  namesFollowKeys flags baseDevices raidDevices.
Proof.
  intros Hall p q Hp Hq. rewrite Forall_forall in Hall.
  specialize (Hall p Hp). rewrite Forall_forall in Hall. by apply Hall.
Qed.

(** C3, amended: the produced devices carry pairwise distinct canonical
    names exactly when the kept base-pass devices do, the kept devices
    expanded from the raid-pass entries that are not skipped do, and no such
    expanded device has the canonical name of a kept base-pass device.  This
    is so whenever, among the entries that contribute a kept device, neither
    pass lists a trimmed [info_name] twice, every expansion keeps devices of
    pairwise distinct names, and the names the helpers derive follow the
    trimmed [info_name]: the skip of the second loop then rules out a name
    shared between the two passes. *)
Theorem scan_unique_names flags (baseDevices raidDevices : R) :
  (NoDup (Info_Name <$> scanDevices flags baseDevices raidDevices) ↔
     NoDup (Info_Name <$>
              filter (kept flags) (baseDevice <$> entries baseDevices)) ∧
     NoDup (Info_Name <$>
              filter (kept flags)
                (raidOnly baseDevices raidDevices ≫= formatDevices)) ∧
     (∀ x y,
        x ∈ filter (kept flags) (baseDevice <$> entries baseDevices) →
        y ∈ filter (kept flags)
              (raidOnly baseDevices raidDevices ≫= formatDevices) →
        Info_Name x ≠ Info_Name y)) ∧
  (NoDup (infoKey <$> keptBase flags baseDevices) →
   NoDup (infoKey <$> liveRaid flags baseDevices raidDevices) →
   (∀ x, x ∈ entries raidDevices →
         NoDup (Info_Name <$> keptExpansion flags x)) →
   namesFollowKeys flags baseDevices raidDevices →
   NoDup (Info_Name <$> scanDevices flags baseDevices raidDevices)).
Proof.
  assert (NoDup (Info_Name <$> scanDevices flags baseDevices raidDevices) ↔
     NoDup (Info_Name <$>
              filter (kept flags) (baseDevice <$> entries baseDevices)) ∧
     NoDup (Info_Name <$>
              filter (kept flags)
                (raidOnly baseDevices raidDevices ≫= formatDevices)) ∧
     (∀ x y,
        x ∈ filter (kept flags) (baseDevice <$> entries baseDevices) →
        y ∈ filter (kept flags)
              (raidOnly baseDevices raidDevices ≫= formatDevices) →
        Info_Name x ≠ Info_Name y)) as Hexact.
  { rewrite scanDevices_eq, candidates_eq, filter_app, fmap_app, NoDup_app.
    split.
    - intros (Hb & Hbr & Hr). repeat split; [done.. |].
      intros x y Hx Hy Heq. apply (Hbr (Info_Name x)).
      + by apply list_elem_of_fmap_2.
      + rewrite Heq. by apply list_elem_of_fmap_2.
    - intros (Hb & Hr & Hbr). repeat split; [done | | done].
      intros name Hx Hy.
      apply list_elem_of_fmap in Hx as (x & -> & Hx).
      apply list_elem_of_fmap in Hy as (y & Heq & Hy). by apply (Hbr x y). }
  split; [exact Hexact |].
  intros Hbase Hraid Hexp Hnames. apply Hexact. split; [| split].
  - (* the base pass *)
    rewrite names_filter_fmap.
    apply (NoDup_bind_by_key infoKey _ (λ e, kept flags (baseDevice e))).
    + intros e name _ Hname. rewrite filter_cons in Hname.
      destruct (decide (kept flags (baseDevice e))); [done |].
      by apply elem_of_nil in Hname.
    + exact Hbase.
    + intros e _. rewrite filter_cons.
      destruct (decide (kept flags (baseDevice e))); simpl;
        [apply NoDup_singleton | constructor].
    + intros e1 e2 name He1 He2 H1 H2.
      rewrite filter_cons in H1, H2.
      destruct (decide (kept flags (baseDevice e1))) as [Hk1|];
        [| by apply elem_of_nil in H1].
      destruct (decide (kept flags (baseDevice e2))) as [Hk2|];
        [| by apply elem_of_nil in H2].
      rewrite filter_nil in H1, H2.
      apply (list_elem_of_singleton name) in H1.
      apply (list_elem_of_singleton name) in H2.
      apply (Hnames (e1, baseDevice e1) (e2, baseDevice e2));
        [by apply yielded_base | by apply yielded_base | done | done |].
      exact (eq_trans (eq_sym H1) H2).
  - (* the raid pass *)
    rewrite names_filter_bind.
    apply (NoDup_bind_by_key infoKey _ (λ x, keptExpansion flags x ≠ [])).
    + intros x name _ Hname Hnil. unfold keptExpansion in Hnil.
      rewrite Hnil in Hname. by apply elem_of_nil in Hname.
    + exact Hraid.
    + intros x Hx. apply Hexp. unfold raidOnly in Hx.
      apply list_elem_of_filter in Hx. tauto.
    + intros x1 x2 name Hx1 Hx2 H1 H2.
      apply list_elem_of_fmap in H1 as (d1 & -> & Hd1).
      apply list_elem_of_fmap in H2 as (d2 & Heq & Hd2).
      apply list_elem_of_filter in Hd1 as [Hk1 Hd1].
      apply list_elem_of_filter in Hd2 as [Hk2 Hd2].
      unfold raidOnly in Hx1, Hx2.
      apply list_elem_of_filter in Hx1 as [_ Hx1].
      apply list_elem_of_filter in Hx2 as [_ Hx2].
      by apply (Hnames (x1, d1) (x2, d2));
        [apply yielded_raid | apply yielded_raid | | |].
  - (* across the passes: the skip of the second loop *)
    intros d1 d2 H1 H2 Heq.
    apply list_elem_of_filter in H1 as [Hk1 H1].
    apply list_elem_of_fmap in H1 as (e & -> & He).
    apply list_elem_of_filter in H2 as [Hk2 H2].
    apply list_elem_of_bind in H2 as (x & Hd2 & Hx).
    unfold raidOnly in Hx. apply list_elem_of_filter in Hx as [Hskip Hx].
    assert (infoKey e = infoKey x) as Hkey
      by (by apply (Hnames (e, baseDevice e) (x, d2));
            [apply yielded_base | apply yielded_raid | | |]).
    apply Hskip. rewrite <- Hkey. by apply list_elem_of_fmap_2.
Qed.

(** C4, amended: when at most one of the two patterns is set, a name is
    ignored exactly when it matches the exclude pattern, if that is the one
    set, and exactly when it does not match the include pattern, if that is
    the one set; with neither set nothing is ignored.  Whatever the patterns,
    discovery returns the candidates whose canonical name is not ignored, in
    candidate order. *)
Theorem filter_policy flags (baseDevices raidDevices : R) name :
  (¬ (smartctlDeviceExclude flags ≠ "" ∧ smartctlDeviceInclude flags ≠ "") →
   stated_filter_policy (ignored (flagFilter flags)) flags name) ∧
  scanDevices flags baseDevices raidDevices =
    filter (λ d, ignored (flagFilter flags) (Info_Name d) = false)
           (candidates baseDevices raidDevices).
Proof.
  split; [intros Hexcl | apply scanDevices_eq].
  unfold stated_filter_policy, flagFilter, newDeviceFilter, ignored,
    compileFlag, matches. simpl.
  destruct (decide (smartctlDeviceExclude flags = "")) as [He|He],
           (decide (smartctlDeviceInclude flags = "")) as [Hi|Hi]; simpl.
  - done.
  - split; [done |]. split; [| done]. intros _. apply negb_true_iff.
  - rewrite orb_false_r. done.
  - tauto.
Qed.

End DiscoveryFacts.

(** ** Collection *)

Section CollectFacts.
Context {R : Type} `{!gjson.Result R}.
Context {Metric World SMARTctlInfo : Type}.
Variable deviceCountMetric : nat → Metric.
Variable readData : World → Device → R * World.
Variable NewSMARTctlInfo : SMARTctlInfo.
Variable SetJSON : SMARTctlInfo → R → SMARTctlInfo.
Variable infoCollect : SMARTctlInfo → list Metric.
Variable smartCollect : R → list Metric.

Local Abbreviation collectStep := (collectStep readData SetJSON smartCollect).
Local Abbreviation Collect :=
  (Collect deviceCountMetric readData NewSMARTctlInfo SetJSON infoCollect
           smartCollect).
Local Abbreviation outcomes := (outcomes readData).
Local Abbreviation worldAfter := (worldAfter readData).
Local Abbreviation emitted := (emitted smartCollect).
Local Abbreviation infoAfter := (infoAfter SetJSON).
Local Abbreviation isDeviceCount := (isDeviceCount deviceCountMetric).

Lemma collectStep_foldl devices st :
  foldl collectStep st devices =
    {| world := worldAfter (world st) devices;
       info := infoAfter (info st) (outcomes (world st) devices);
       ch := ch st ++ (outcomes (world st) devices ≫= emitted) |}.
Proof.
  revert st. induction devices as [|d devices IH]; intros st.
  - simpl. rewrite app_nil_r. by destruct st.
  - cbn [foldl]. rewrite IH. unfold exporter.collectStep.
    unfold worldAfter, infoAfter, emitted.
    cbn [foldl outcomes]. rewrite bind_cons.
    destruct (readData (world st) d) as [json w] eqn:E. cbn [fst snd].
    destruct (gjson.Exists json); cbn [world info ch]; [| done].
    by rewrite <- app_assoc.
Qed.

Lemma length_outcomes w devices : length (outcomes w devices) = length devices.
Proof.
  revert w. induction devices as [|d devices IH]; intros w; simpl; [done |].
  by rewrite IH.
Qed.

Lemma Collect_eq devices w :
  (Collect devices w).1 =
    (outcomes w devices ≫= emitted) ++
    [deviceCountMetric (length devices)] ++
    infoCollect (infoAfter NewSMARTctlInfo (outcomes w devices)).
Proof.
  unfold exporter.Collect. rewrite collectStep_foldl. cbn [fst world info ch].
  by rewrite app_nil_l, <- app_assoc.
Qed.

(** C6: a pass reads every device of the inventory once, in order.  For a
    device whose result does not exist it sends nothing; for every other
    device it sends what the translator makes of that device's own result,
    whatever the other reads gave.  After the devices it sends the summary
    metric with the length of the inventory, unreadable devices included, and
    then what [info.Collect] sends.  When neither the translator nor
    [info.Collect] sends a summary metric, that one is the only summary
    metric of the pass. *)
Theorem collect_skips_unreadable (devices : list Device) (w : World) :
  length (outcomes w devices) = length devices ∧
  (Collect devices w).1 =
    (outcomes w devices ≫= emitted) ++
    [deviceCountMetric (length devices)] ++
    infoCollect (infoAfter NewSMARTctlInfo (outcomes w devices)) ∧
  (∀ json, gjson.Exists json = false → emitted json = []) ∧
  (∀ json, gjson.Exists json = true → emitted json = smartCollect json) ∧
  ((∀ json m, m ∈ smartCollect json → ¬ isDeviceCount m) →
   (∀ info m, m ∈ infoCollect info → ¬ isDeviceCount m) →
   ∀ i m, (Collect devices w).1 !! i = Some m → isDeviceCount m →
          i = length ((outcomes w devices ≫= emitted)) ∧
          m = deviceCountMetric (length devices)).
Proof.
  split; [apply length_outcomes |]. split; [apply Collect_eq |].
  split; [by intros json E; unfold emitted; rewrite E |].
  split; [by intros json E; unfold emitted; rewrite E |].
  intros Hsmart Hinfo i m Hi Hm. rewrite Collect_eq in Hi.
  set (before := (outcomes w devices ≫= emitted)) in *.
  assert (∀ x, x ∈ before → ¬ isDeviceCount x) as Hbefore.
  { intros x Hx. apply list_elem_of_bind in Hx as (json & Hx & _).
    unfold emitted in Hx. destruct (gjson.Exists json).
    - by apply (Hsmart json).
    - by apply elem_of_nil in Hx. }
  destruct (decide (i < length before)) as [Hlt | Hge].
  - rewrite lookup_app_l in Hi by done.
    destruct (Hbefore m); [by eapply list_elem_of_lookup_2 | done].
  - rewrite lookup_app_r in Hi by lia.
    destruct (i - length before) as [|j] eqn:Ej.
    + simpl in Hi. split; [lia | congruence].
    + simpl in Hi. destruct (Hinfo _ m (list_elem_of_lookup_2 _ _ _ Hi) Hm).
Qed.

End CollectFacts.

(** ** The process: rescans against collection passes *)

Lemma holding_app l1 l2 : holding (l1 ++ l2) = holding l1 + holding l2.
Proof. induction l1 as [|pc l1 IH]; simpl; [done | rewrite IH; lia]. Qed.

Lemma holding_insert l i pc pc' :
  l !! i = Some pc →
  holding (<[i := pc']> l) + (if passHolds pc then 1 else 0) =
    holding l + (if passHolds pc' then 1 else 0).
Proof.
  revert i. induction l as [|a l IH]; intros [|i] Hi; simplify_eq/=.
  - lia.
  - specialize (IH i Hi). lia.
Qed.

Lemma holding_none l :
  holding l = 0 → Forall (λ pc, passHolds pc = false) l.
Proof.
  induction l as [|pc l IH]; simpl; intros Hl; constructor.
  - destruct (passHolds pc); [lia | done].
  - apply IH. lia.
Qed.

Section ProcessFacts.
Context {R : Type} `{!gjson.Result R} `{!regexp.Engine}.
Variable TrimSpace : string → string.
Variable getDiskName : string → string → string.
Variable formatDevices : R → list Device.
Variable readSMARTctlDevices : nat → list string → R.
Variable flags : Flags.

Local Abbreviation scanDevicesAt :=
  (scanDevicesAt TrimSpace getDiskName formatDevices readSMARTctlDevices flags).
Local Abbreviation startupDevices :=
  (startupDevices TrimSpace getDiskName formatDevices readSMARTctlDevices flags).
Local Abbreviation rescanStep :=
  (rescanStep TrimSpace getDiskName formatDevices readSMARTctlDevices flags).
Local Abbreviation step :=
  (step TrimSpace getDiskName formatDevices readSMARTctlDevices flags).
Local Abbreviation run :=
  (run TrimSpace getDiskName formatDevices readSMARTctlDevices flags).
Local Abbreviation main :=
  (main TrimSpace getDiskName formatDevices readSMARTctlDevices flags).
Local Abbreviation inventoryAt :=
  (inventoryAt TrimSpace getDiskName formatDevices readSMARTctlDevices flags).
Local Abbreviation passOk :=
  (passOk TrimSpace getDiskName formatDevices readSMARTctlDevices flags).
Local Abbreviation invariant :=
  (invariant TrimSpace getDiskName formatDevices readSMARTctlDevices flags).

Lemma passOk_later devices n n' pc :
  n ≤ n' → passOk devices n pc → passOk devices n' pc.
Proof.
  intros Hn. destruct pc; simpl; try done.
  intros (? & k & ? & ?). split; [done |]. exists k. split; [lia | done].
Qed.

Lemma passOk_idle devices devices' n pc :
  passHolds pc = false → passOk devices n pc → passOk devices' n pc.
Proof. by destruct pc. Qed.

Lemma passes_idle devices devices' n n' l :
  holding l = 0 → n ≤ n' →
  Forall (passOk devices n) l → Forall (passOk devices' n') l.
Proof.
  intros Hl Hn Hok. apply holding_none in Hl.
  rewrite Forall_forall in *. intros pc Hpc.
  eapply passOk_later; [done |]. eapply passOk_idle; eauto.
Qed.

Lemma invariant_main : invariant main.
Proof.
  split; simpl.
  - unfold holders. simpl. by case_bool_decide.
  - exists 0. split; [lia | done].
  - by case_bool_decide.
  - constructor.
Qed.

Lemma invariant_scrape s :
  invariant s →
  invariant {| collector := collector s; rescanner := rescanner s;
               passes := passes s ++ [CLock]; scans := scans s |}.
Proof.
  intros [Hm Hd Hr Hp]. split; simpl; try done.
  - unfold holders in *. simpl. rewrite holding_app. simpl. lia.
  - apply Forall_app. split; [done |]. by repeat constructor.
Qed.

Lemma invariant_rescan s pc c n pc' :
  invariant s →
  rescanner s = Some pc →
  rescanStep (collector s) (scans s) pc = Some (c, n, pc') →
  invariant {| collector := c; rescanner := Some pc';
               passes := passes s; scans := n |}.
Proof.
  intros [Hm Hd Hr Hp] Hpc Hstep. unfold holders in Hm.
  rewrite Hpc in Hm, Hr. destruct Hd as (k & Hk & Hd).
  destruct pc as [|devices|devices|]; simpl in Hstep.
  - (* asleep: run the next discovery pass *)
    simplify_eq. split; unfold holders; simpl; try done.
    + exists k. split; [lia | done].
    + split; [lia |]. f_equal. lia.
    + eapply Forall_impl; [done |]. intros pc. apply passOk_later. lia.
  - (* Lock *)
    destruct (mutex (collector s)) eqn:Hmu; simplify_eq.
    simpl in Hm. split; unfold holders; simpl; try done; try lia.
    by exists k.
  - (* i.Devices = devices *)
    simplify_eq. simpl in Hm. destruct Hr as [Hn ->].
    assert (holding (passes s) = 0) as Hidle
      by (destruct (mutex (collector s)); lia).
    split; unfold holders; simpl; try done.
    + exists (scans s - 1). split; [lia |].
      unfold inventoryAt. destruct (scans s - 1) eqn:E; [lia | done].
    + apply (passes_idle (Devices (collector s)) _ (scans s));
        [done | lia | done].
  - (* Unlock *)
    simplify_eq. simpl in Hm.
    assert (holding (passes s) = 0) as Hidle
      by (destruct (mutex (collector s)); lia).
    split; unfold holders; simpl; try done; try lia.
    by exists k.
Qed.

Lemma invariant_pass s i pc c pc' :
  invariant s →
  passes s !! i = Some pc →
  passStep (collector s) pc = Some (c, pc') →
  invariant {| collector := c; rescanner := rescanner s;
               passes := <[i := pc']> (passes s); scans := scans s |}.
Proof.
  intros [Hm Hd Hr Hp] Hpc Hstep. unfold holders in Hm.
  pose proof (holding_insert _ _ _ pc' Hpc) as Hcount.
  pose proof (proj1 (Forall_lookup _ _) Hp _ _ Hpc) as Hok.
  assert (Devices c = Devices (collector s)) as HD.
  { destruct pc as [| |seen [|d rest]| | |]; simpl in Hstep;
      repeat case_match; by simplify_eq. }
  split; simpl; rewrite ?HD; try done.
  - (* the mutex *)
    unfold holders. simpl. clear HD Hok Hp Hd Hr.
    destruct (rescanner s) as [rpc|]; [destruct (rescanHolds rpc) |];
      destruct (mutex (collector s)) eqn:Hmu;
      destruct pc as [| |seen [|d rest]| | |]; simpl in Hstep;
      rewrite ?Hmu in Hstep; simplify_eq/=; rewrite ?Hmu; lia.
  - (* the passes *)
    apply Forall_insert; [done |]. clear Hcount Hm.
    destruct pc as [| |seen [|d rest]| | |]; simpl in Hstep, Hok;
      try destruct (mutex (collector s)); simplify_eq; simpl in *; try done.
    all: try (by rewrite app_nil_r in Hok).
    all: try (by rewrite <- app_assoc).
    all: destruct Hok as [Hseen ->]; split; [done |].
    all: destruct Hd as (k & Hk & Hd); exists k; split; [done | congruence].
Qed.

Lemma invariant_step s choice s' :
  invariant s → step s choice = Some s' → invariant s'.
Proof.
  intros Hinv Hstep. destruct choice as [| |i]; simpl in Hstep.
  - simplify_eq. by apply invariant_scrape.
  - destruct (rescanner s) as [pc|] eqn:Hpc; simpl in Hstep; [| done].
    destruct (rescanStep (collector s) (scans s) pc) as [[[c n] pc']|] eqn:E;
      simpl in Hstep; simplify_eq.
    by eapply invariant_rescan.
  - destruct (passes s !! i) as [pc|] eqn:Hpc; simpl in Hstep; [| done].
    destruct (passStep (collector s) pc) as [[c pc']|] eqn:E;
      simpl in Hstep; simplify_eq.
    by eapply invariant_pass.
Qed.

Lemma invariant_run_from s schedule s' :
  invariant s → run s schedule = Some s' → invariant s'.
Proof.
  revert s. induction schedule as [|choice schedule IH]; intros s Hinv Hrun;
    simpl in Hrun.
  - by simplify_eq.
  - destruct (step s choice) as [s1|] eqn:E; simpl in Hrun; [| done].
    eapply IH; [| done]. by eapply invariant_step.
Qed.

Lemma invariant_run schedule s : run main schedule = Some s → invariant s.
Proof. apply invariant_run_from, invariant_main. Qed.

Lemma rescanner_stays_off s schedule s' :
  rescanner s = None → run s schedule = Some s' → rescanner s' = None.
Proof.
  revert s. induction schedule as [|choice schedule IH]; intros s Hoff Hrun;
    simpl in Hrun; [by simplify_eq |].
  destruct (step s choice) as [s1|] eqn:E; simpl in Hrun; [| done].
  apply (IH s1); [| done]. destruct choice as [| |i]; simpl in E.
  - by simplify_eq.
  - rewrite Hoff in E. done.
  - destruct (passes s !! i) as [pc|]; simpl in E; [| done].
    destruct (passStep (collector s) pc) as [[c pc']|]; simpl in E;
      by simplify_eq.
Qed.

(** Every pass works on one of the inventories the collector has held, and
    the count it sends is the length of that inventory. *)
Lemma pass_observes_one_inventory schedule s pc devices :
  run main schedule = Some s →
  pc ∈ passes s → snapshot pc = Some devices →
  (∃ k, k < scans s ∧ devices = inventoryAt k) ∧
  ∀ n, reported pc = Some n → n = length devices.
Proof.
  intros Hrun Hpc Hsnap. destruct (invariant_run _ _ Hrun) as [_ Hd _ Hp].
  rewrite Forall_forall in Hp. specialize (Hp pc Hpc).
  destruct Hd as (k & Hk & Hd).
  destruct pc; simpl in Hsnap, Hp; simplify_eq; simpl.
  - split; [| done]. exists k. split; [done | congruence].
  - split; [| done]. by exists k.
  - destruct Hp as [Hseen ->]. split; [| by intros ? [= <-]].
    exists k. split; [done | congruence].
  - destruct Hp as [-> Hseen]. split; [done | by intros ? [= <-]].
Qed.

(** C1: in every run of the process in which the rescan loop has run at
    most one discovery pass, at most one goroutine is between [Lock()] and
    [Unlock()], the mutex being locked exactly then; and every call of
    [Collect], wherever it stands, works on the whole inventory from before
    the replacement or the whole inventory from after it, and sends the
    length of that same inventory as its device count. *)
Theorem snapshot_consistency schedule s :
  run main schedule = Some s →
  scans s ≤ 2 →
  holders s ≤ 1 ∧
  (holders s = 1 ↔ mutex (collector s) = true) ∧
  ∀ pc devices, pc ∈ passes s → snapshot pc = Some devices →
    (devices = startupDevices ∨ devices = scanDevicesAt 1) ∧
    ∀ n, reported pc = Some n → n = length devices.
Proof.
  intros Hrun Hone. pose proof (invariant_run _ _ Hrun) as [Hm _ _ _].
  split; [destruct (mutex (collector s)); lia |].
  split; [destruct (mutex (collector s)); split; (done || lia) |].
  intros pc devices Hpc Hsnap.
  destruct (pass_observes_one_inventory _ _ _ _ Hrun Hpc Hsnap)
    as [(k & Hk & ->) Hcount].
  split; [| done].
  destruct k as [|[|k]]; [by left | by right | lia].
Qed.

(** C7: [main] starts the rescan goroutine exactly when the interval is at
    least one second.  With a smaller interval, in every run of the process
    discovery has run once, the collector holds the start-up inventory, and
    every call of [Collect] works on that inventory. *)
Theorem rescan_needs_one_second :
  (rescanner main = Some RSleep ↔ (Second ≤ smartctlRescanInterval flags)%Z) ∧
  (rescanner main = None ↔ (smartctlRescanInterval flags < Second)%Z) ∧
  ((smartctlRescanInterval flags < Second)%Z →
   ∀ schedule s, run main schedule = Some s →
     scans s = 1 ∧ rescanner s = None ∧
     Devices (collector s) = startupDevices ∧
     ∀ pc devices, pc ∈ passes s → snapshot pc = Some devices →
       devices = startupDevices ∧
       ∀ n, reported pc = Some n → n = length startupDevices).
Proof.
  assert (rescanner main = None ↔ (smartctlRescanInterval flags < Second)%Z)
    as Hoff by (simpl; case_bool_decide; split; (done || lia)).
  split; [simpl; case_bool_decide; split; (done || lia) |].
  split; [done |]. intros Hsmall schedule s Hrun.
  apply Hoff in Hsmall.
  pose proof (rescanner_stays_off _ _ _ Hsmall Hrun) as Hnone.
  pose proof (invariant_run _ _ Hrun) as [_ _ Hr _]. rewrite Hnone in Hr.
  destruct Hr as [Hscans Hdevices]. repeat (split; [done |]).
  intros pc devices Hpc Hsnap.
  destruct (pass_observes_one_inventory _ _ _ _ Hrun Hpc Hsnap)
    as [(k & Hk & ->) Hcount].
  assert (k = 0) as -> by lia. done.
Qed.

(** C8: the start-up inventory is the first discovery pass, narrowed by the
    explicit devices when there are any; whether the rescan goroutine is
    started depends on the interval alone, not on the explicit devices; and
    whenever the rescan goroutine stands at [i.Devices = devices], the
    devices it is about to store are the result of its latest discovery pass
    (pass number one or later) as [scanDevices] returned it, with no
    narrowing by the explicit devices. *)
Theorem allowlist_only_at_startup :
  Devices (collector main) =
    match smartctlDevices flags with
    | [] => scanDevicesAt 0
    | _ :: _ => filterDevices (scanDevicesAt 0) (smartctlDevices flags)
    end ∧
  (∀ explicitDevices,
     rescanner (exporter.main TrimSpace getDiskName formatDevices
                  readSMARTctlDevices
                  {| smartctlRescanInterval := smartctlRescanInterval flags;
                     smartctlDevices := explicitDevices;
                     smartctlDeviceExclude := smartctlDeviceExclude flags;
                     smartctlDeviceInclude := smartctlDeviceInclude flags |})
     = if bool_decide (Second ≤ smartctlRescanInterval flags)%Z
       then Some RSleep else None) ∧
  (∀ schedule s devices,
     run main schedule = Some s →
     rescanner s = Some (RAssign devices) →
     ∃ k s', 1 ≤ k ∧ scans s = S k ∧
             step s Rescan = Some s' ∧
             Devices (collector s') =
               scanDevices TrimSpace getDiskName formatDevices flags
                 (readSMARTctlDevices k [])
                 (readSMARTctlDevices k ["-d"; "sat"])).
Proof.
  split; [| split].
  - simpl. unfold exporter.startupDevices.
    destruct (smartctlDevices flags); [done |].
    rewrite bool_decide_eq_true_2; [done | simpl; lia].
  - done.
  - intros schedule s devices Hrun Hpc.
    pose proof (invariant_run _ _ Hrun) as [_ _ Hr _]. rewrite Hpc in Hr.
    destruct Hr as [Hn ->]. exists (scans s - 1). eexists.
    split; [lia |]. split; [lia |]. simpl. rewrite Hpc. simpl. done.
Qed.

(** C9: restricting by an empty allowlist leaves no device; [main] does not
    restrict when no explicit device is given, so that the start-up inventory
    is then the whole first discovery pass, and restricts when at least one
    is given. *)
Theorem empty_allowlist_not_applied interval excludePattern includePattern :
  (∀ devices, filterDevices devices [] = []) ∧
  exporter.startupDevices TrimSpace getDiskName formatDevices
      readSMARTctlDevices (mkFlags interval [] excludePattern includePattern)
    = exporter.scanDevicesAt TrimSpace getDiskName formatDevices
        readSMARTctlDevices (mkFlags interval [] excludePattern includePattern) 0 ∧
  (∀ name names,
     exporter.startupDevices TrimSpace getDiskName formatDevices
         readSMARTctlDevices
         (mkFlags interval (name :: names) excludePattern includePattern)
       = filterDevices
           (exporter.scanDevicesAt TrimSpace getDiskName formatDevices
              readSMARTctlDevices
              (mkFlags interval (name :: names) excludePattern includePattern) 0)
           (name :: names)).
Proof.
  split; [| split].
  - intros devices. rewrite filterDevices_filter. apply filter_none.
    intros d _ Hd. by apply Exists_nil in Hd.
  - done.
  - done.
Qed.

End ProcessFacts.

(** ** The program on the concrete host *)

Module Scenario.
Import Fixture Host.

Local Abbreviation scan := (scanDevices TrimSpace getDiskName formatDevices).

(** *** Discovery *)

(** The base pass lists sda and sdb, the raid pass sda and sdc. *)
Example scan_base_then_raid :
  Info_Name <$> scan defaultFlags (listing [sda; sdb]) (listing [sda; sdc])
    = ["sda"; "sdb"; "sdc"].
Proof. reflexivity. Qed.

Example scan_exclude_loop :
  Info_Name <$> scan excludeLoop (listing [sda; loop0; loop1]) (listing [])
    = ["sda"].
Proof. reflexivity. Qed.

(** The key of the second loop is the raw [info_name]: the base-pass device
    of [/dev/sda] is named [sda], and a raid-pass entry whose raw
    [info_name] is [sda] is not skipped, while one whose raw [info_name] is
    [/dev/sda] with blanks around it is. *)
Example raw_key_not_canonical_name :
  Info_Name <$> scan defaultFlags (listing [sda])
                  (listing [entry "/dev/bus/0" "sda" "megaraid,0";
                            entry "/dev/sda" " /dev/sda " "sat"])
    = ["sda"; "sda"].
Proof. reflexivity. Qed.

(** A device listed in both passes and excluded by the filter is not
    produced at all. *)
Example scan_dedup_then_ignored :
  scan excludeLoop (listing [loop0; sda]) (listing [loop0]) =
    [baseDevice TrimSpace getDiskName sda].
Proof. reflexivity. Qed.

(** C2, against the claim as stated: the base pass lists [/dev/sda] twice
    and the raid pass lists it too; both base-pass devices are produced. *)
Lemma dedup_precedence_fails_on_repeated_entry :
  ¬ stated_dedup_precedence TrimSpace getDiskName formatDevices
      defaultFlags (listing [sda; sda]) (listing [sda]).
Proof.
  intros Hclaim. specialize (Hclaim sda).
  assert (named "sda" (scan defaultFlags (listing [sda; sda]) (listing [sda]))
          = [baseDevice TrimSpace getDiskName sda]) as Hone.
  { apply Hclaim; [apply (list_elem_of_here sda [sda]) | compute_done]. }
  vm_compute in Hone. discriminate Hone.
Qed.

Lemma dedup_precedence_witness :
  named "sda" (scan defaultFlags (listing [sda; sdb]) (listing [sda; sdc]))
    = [baseDevice TrimSpace getDiskName sda].
Proof.
  change "sda" with (Info_Name (baseDevice TrimSpace getDiskName sda)) at 1.
  apply (proj2 (proj2 (dedup_precedence TrimSpace getDiskName formatDevices
           defaultFlags (listing [sda; sdb]) (listing [sda; sdc]))) sda);
    [apply (list_elem_of_here sda [sdb]) | compute_done | compute_done].
Defined.

(** C3, against the claim as stated: a base pass that lists [/dev/sda]
    twice yields two devices named alike. *)
Lemma scan_names_repeat_with_listing :
  ¬ NoDup (Info_Name <$> scan defaultFlags (listing [sda; sda]) (listing [])).
Proof. compute_done. Qed.

(** The base pass lists [/dev/loop0] twice, the filter ignores it: the
    entries that contribute list no identity twice. *)
Lemma scan_unique_names_witness :
  NoDup (Info_Name <$>
           scan excludeLoop (listing [loop0; loop0; sda]) (listing [sda; sdc])).
Proof.
  apply (proj2 (scan_unique_names TrimSpace getDiskName formatDevices
                  excludeLoop (listing [loop0; loop0; sda])
                  (listing [sda; sdc]))).
  - compute_done.
  - compute_done.
  - apply Forall_forall. compute_done.
  - apply namesFollowKeys_Forall. compute_done.
Defined.

(** C4, against the claim as stated: with both patterns set, [nvme0n1]
    matches neither, so it is ignored (it does not match include) although
    it does not match exclude. *)
Lemma filter_policy_fails_with_both_patterns :
  ¬ stated_filter_policy (ignored (flagFilter excludeLoopIncludeSd))
      excludeLoopIncludeSd "nvme0n1".
Proof.
  intros (Hexclude & _). assert (true = true ↔ false = true) as [Habs _].
  { apply Hexclude. discriminate. }
  by specialize (Habs eq_refl).
Qed.

(** No verdict at all meets the policy as stated on that name: the clause
    for exclude wants it kept, the clause for include wants it ignored. *)
Remark no_verdict_with_both_patterns (verdict : string → bool) :
  ¬ stated_filter_policy verdict excludeLoopIncludeSd "nvme0n1".
Proof.
  intros (Hexclude & Hinclude & _).
  assert (verdict "nvme0n1" = true ↔ false = true) as [Hkeep _]
    by (apply Hexclude; discriminate).
  assert (verdict "nvme0n1" = true ↔ false = false) as [_ Hignore]
    by (apply Hinclude; discriminate).
  specialize (Hignore eq_refl). by specialize (Hkeep Hignore).
Qed.

Lemma filter_policy_witness :
  stated_filter_policy (ignored (flagFilter excludeLoop)) excludeLoop "loop0" ∧
  scan excludeLoop (listing [sda; loop0; loop1]) (listing []) =
    filter (λ d, ignored (flagFilter excludeLoop) (Info_Name d) = false)
      (candidates TrimSpace getDiskName formatDevices
         (listing [sda; loop0; loop1]) (listing [])).
Proof.
  split.
  - apply (proj1 (filter_policy TrimSpace getDiskName formatDevices
                    excludeLoop (listing [sda; loop0; loop1]) (listing [])
                    "loop0")).
    intros [_ Hinclude]. by apply Hinclude.
  - apply (proj2 (filter_policy TrimSpace getDiskName formatDevices
                    excludeLoop (listing [sda; loop0; loop1]) (listing [])
                    "loop0")).
Defined.

(** With both patterns set discovery still returns the candidates that are
    not ignored: [loop0] matches exclude, [nvme0n1] does not match
    include. *)
Example scan_with_both_patterns :
  Info_Name <$>
    scan excludeLoopIncludeSd
      (listing [sda; loop0; entry "/dev/nvme0n1" "/dev/nvme0n1" "nvme"])
      (listing [sdc])
  = ["sda"; "sdc"].
Proof. reflexivity. Qed.

(** *** The process on a host where sdc appears after start-up *)

Local Abbreviation process := (main TrimSpace getDiskName formatDevices tool).
Local Abbreviation runProcess := (run TrimSpace getDiskName formatDevices tool).

Example interleaving_runs :
  runProcess defaultFlags (process defaultFlags) interleaving = Some afterInterleaving.
Proof. vm_compute. reflexivity. Qed.

(** While a pass holds the mutex the rescan loop cannot pass its [Lock()],
    and the other way round. *)
Example rescan_waits_for_pass :
  runProcess defaultFlags (process defaultFlags)
    [Scrape; Pass 0; Pass 0; Rescan; Rescan] = None.
Proof. reflexivity. Qed.

Example pass_waits_for_rescan :
  runProcess defaultFlags (process defaultFlags)
    [Scrape; Rescan; Rescan; Pass 0] = None.
Proof. reflexivity. Qed.

(** The first pass worked on the two devices of the start-up inventory and
    counted two; the second works on the three devices of the rescan and
    counted three. *)
Example interleaving_observations :
  (λ pc, (Info_Name <$> default [] (snapshot pc), reported pc))
    <$> passes afterInterleaving
  = [(["sda"; "sdb"], Some 2); (["sda"; "sdb"; "sdc"], Some 3)].
Proof. reflexivity. Qed.

Lemma snapshot_consistency_witness :
  holders afterInterleaving ≤ 1 ∧
  (holders afterInterleaving = 1 ↔ mutex (collector afterInterleaving) = true) ∧
  ∀ pc devices,
    pc ∈ passes afterInterleaving → snapshot pc = Some devices →
    (devices = startupDevices TrimSpace getDiskName formatDevices tool defaultFlags ∨
     devices = scanDevicesAt TrimSpace getDiskName formatDevices tool defaultFlags 1) ∧
    ∀ n, reported pc = Some n → n = length devices.
Proof.
  apply (snapshot_consistency TrimSpace getDiskName formatDevices tool
           defaultFlags interleaving afterInterleaving);
    [vm_compute; reflexivity | vm_compute; lia].
Defined.

Example scrapes_observations :
  (λ pc, (Info_Name <$> default [] (snapshot pc), reported pc))
    <$> passes afterScrapes
  = [(["sda"; "sdb"], Some 2); (["sda"; "sdb"], Some 2)].
Proof. reflexivity. Qed.

Lemma rescan_needs_one_second_witness :
  scans afterScrapes = 1 ∧ rescanner afterScrapes = None ∧
  Devices (collector afterScrapes) =
    startupDevices TrimSpace getDiskName formatDevices tool rescanOff ∧
  ∀ pc devices, pc ∈ passes afterScrapes → snapshot pc = Some devices →
    devices = startupDevices TrimSpace getDiskName formatDevices tool rescanOff ∧
    ∀ n, reported pc = Some n →
         n = length (startupDevices TrimSpace getDiskName formatDevices tool rescanOff).
Proof.
  apply (proj2 (proj2 (rescan_needs_one_second TrimSpace getDiskName
                         formatDevices tool rescanOff))
           ltac:(vm_compute; reflexivity) scrapesOnly afterScrapes).
  vm_compute. reflexivity.
Defined.

(** With [--smartctl.device=sda] the start-up inventory is sda alone; the
    first rescan stores all of sda, sdb and sdc. *)
Example explicit_devices_then_rescan :
  Info_Name <$> Devices (collector (process explicitSda)) = ["sda"] ∧
  (Info_Name <$>
     default [] (Devices ∘ collector <$>
                   runProcess explicitSda (process explicitSda)
                     [Rescan; Rescan; Rescan]))
    = ["sda"; "sdb"; "sdc"].
Proof. split; reflexivity. Qed.

Lemma allowlist_only_at_startup_witness :
  ∃ k s', 1 ≤ k ∧ scans atFirstReplace = S k ∧
    step TrimSpace getDiskName formatDevices tool explicitSda
      atFirstReplace Rescan = Some s' ∧
    Devices (collector s') =
      scanDevices TrimSpace getDiskName formatDevices explicitSda
        (tool k []) (tool k ["-d"; "sat"]).
Proof.
  apply (proj2 (proj2 (allowlist_only_at_startup TrimSpace getDiskName
                         formatDevices tool explicitSda))
           [Rescan; Rescan] atFirstReplace
           (scanDevicesAt TrimSpace getDiskName formatDevices tool
              explicitSda 1));
    vm_compute; reflexivity.
Defined.

(** *** A collection pass with an unreadable device *)

Example collect_with_unreadable_sdb :
  (Collect DeviceCount readAnswer None firstJSON versionMetric statusMetric
     inventory answers).1
  = [SmartStatus "/dev/sda"; SmartStatus "/dev/sdc"; DeviceCount 3;
     SmartctlVersion "7.4"].
Proof. reflexivity. Qed.

Lemma collect_skips_unreadable_witness :
  2 = length (outcomes readAnswer answers inventory ≫= emitted statusMetric) ∧
  DeviceCount 3 = DeviceCount (length inventory).
Proof.
  apply (proj2 (proj2 (proj2 (proj2
           (collect_skips_unreadable DeviceCount readAnswer None firstJSON
              versionMetric statusMetric inventory answers))))).
  - intros j m Hm [n ->]. apply list_elem_of_singleton in Hm. discriminate.
  - intros [j|] m Hm [n ->]; simpl in Hm.
    + apply list_elem_of_singleton in Hm. discriminate.
    + by apply elem_of_nil in Hm.
  - reflexivity.
  - by exists 3.
Defined.

End Scenario.

(** * Part V: further properties *)

(** ** [filterDevices] *)

Lemma filter_all {A} (P : A → Prop) `{!∀ x, Decision (P x)} (l : list A) :
  (∀ x, x ∈ l → P x) → filter P l = l.
Proof.
  induction l as [|a l IH]; intros Hl; [done |].
  rewrite filter_cons_True; [| apply Hl; left].
  f_equal. apply IH. intros x Hx. apply Hl. by right.
Qed.

Lemma allowed_more filters1 filters2 d :
  filters1 ⊆ filters2 → allowed filters1 d → allowed filters2 d.
Proof.
  unfold allowed. rewrite !Exists_exists. intros Hsub (entry & Hin & Hs).
  exists entry. split; [by apply Hsub | done].
Qed.

(** X1: restricting twice keeps the devices that both allowlists allow, in
    whichever order the two restrictions are applied, and restricting again
    by the same allowlist changes nothing. *)
Theorem filterDevices_twice (devices : list Device) (filters1 filters2 : list string) :
  filterDevices (filterDevices devices filters1) filters2 =
    filter (λ d, allowed filters2 d ∧ allowed filters1 d) devices ∧
  filterDevices (filterDevices devices filters1) filters2 =
    filterDevices (filterDevices devices filters2) filters1 ∧
  filterDevices (filterDevices devices filters1) filters1 =
    filterDevices devices filters1.
Proof.
  rewrite !filterDevices_filter, !list_filter_filter.
  split; [done |]. split; apply list_filter_iff; tauto.
Qed.

(** X2: an allowlist that holds the empty string retains every device, the
    empty string being a substring of every name. *)
Theorem filterDevices_empty_entry (devices : list Device) (filters : list string) :
  "" ∈ filters → filterDevices devices filters = devices.
Proof.
  intros Hin. rewrite filterDevices_filter. apply filter_all.
  intros d _. apply Exists_exists. exists "". split; [done |].
  by exists "", (Info_Name d).
Qed.

(** X3: the result depends on which entries the allowlist holds, not on
    their order or on how often each is given. *)
Theorem filterDevices_same_entries (devices : list Device)
    (filters1 filters2 : list string) :
  (∀ entry, entry ∈ filters1 ↔ entry ∈ filters2) →
  filterDevices devices filters1 = filterDevices devices filters2.
Proof.
  intros Hsame. rewrite !filterDevices_filter. apply list_filter_iff.
  intros d. split; apply allowed_more; intros entry; apply Hsame.
Qed.

(** X4: restricting a concatenation of device sequences restricts each part
    and concatenates the results. *)
Theorem filterDevices_app (devices1 devices2 : list Device) (filters : list string) :
  filterDevices (devices1 ++ devices2) filters =
    filterDevices devices1 filters ++ filterDevices devices2 filters.
Proof. rewrite !filterDevices_filter. apply filter_app. Qed.

(** X5: adding entries to the allowlist can only retain more devices: the
    result for the smaller allowlist is the result for the larger one with
    some devices left out. *)
Theorem filterDevices_more_entries (devices : list Device)
    (filters1 filters2 : list string) :
  filters1 ⊆ filters2 →
  filterDevices devices filters1 `sublist_of` filterDevices devices filters2.
Proof.
  intros Hsub. rewrite !filterDevices_filter.
  rewrite <- (list_filter_filter_l (allowed filters1) (allowed filters2));
    [apply sublist_filter |].
  intros d. by apply allowed_more.
Qed.

(** X6: a device that several entries of the allowlist match is retained
    once: the result is no longer than the input, and has no repeated device
    when the input has none. *)
Theorem filterDevices_no_repeat (devices : list Device) (filters : list string) :
  length (filterDevices devices filters) ≤ length devices ∧
  (NoDup devices → NoDup (filterDevices devices filters)).
Proof.
  rewrite filterDevices_filter. split; [apply length_filter |].
  apply NoDup_filter.
Qed.

(** ** [scanDevices] *)

Section DiscoveryMore.
Context {R : Type} `{!gjson.Result R} `{!regexp.Engine}.
Variable TrimSpace : string → string.
Variable getDiskName : string → string → string.
Variable formatDevices : R → list Device.

Local Abbreviation infoKey := (infoKey TrimSpace).
Local Abbreviation baseDevice := (baseDevice TrimSpace getDiskName).
Local Abbreviation baseLoop := (baseLoop TrimSpace getDiskName).
Local Abbreviation candidates := (candidates TrimSpace getDiskName formatDevices).
Local Abbreviation scanDevices := (scanDevices TrimSpace getDiskName formatDevices).

(** X7: discovery produces a device only if the filter keeps it and it is
    either the device of a base-pass entry or one of the devices an entry of
    the raid pass expands to, the trimmed [info_name] of that entry being that
    of no base-pass entry; and it produces every such device. *)
Theorem scanDevices_elem flags (baseDevices raidDevices : R) (d : Device) :
  d ∈ scanDevices flags baseDevices raidDevices ↔
    kept flags d ∧
    ((∃ e, e ∈ entries baseDevices ∧ d = baseDevice e) ∨
     (∃ x, x ∈ entries raidDevices ∧
           (infoKey x ∉ infoKey <$> entries baseDevices) ∧
           d ∈ formatDevices x)).
Proof.
  rewrite scanDevices_eq, candidates_eq, list_elem_of_filter, elem_of_app.
  rewrite list_elem_of_fmap, list_elem_of_bind. unfold raidOnly.
  split.
  - intros [Hk [(e & -> & He) | (x & Hd & Hx)]]; (split; [done |]).
    + left. by exists e.
    + right. apply list_elem_of_filter in Hx as [Hkey Hx]. by exists x.
  - intros [Hk [(e & He & ->) | (x & Hx & Hkey & Hd)]]; (split; [done |]).
    + left. by exists e.
    + right. exists x. split; [done |]. by apply list_elem_of_filter.
Qed.

(** X8: when the base pass lists nothing (the reader failed, or no device is
    attached directly), no entry of the raid pass is skipped: the result is
    the kept devices of the expansions of all raid-pass entries, in order. *)
Theorem scanDevices_base_pass_empty flags (baseDevices raidDevices : R) :
  entries baseDevices = [] →
  scanDevices flags baseDevices raidDevices =
    filter (kept flags) (entries raidDevices ≫= formatDevices).
Proof.
  intros Hb. rewrite scanDevices_eq, candidates_eq. unfold raidOnly.
  rewrite Hb. simpl. f_equal. f_equal. apply filter_all.
  intros x _. apply not_elem_of_nil.
Qed.

(** X9: when every entry of the raid pass has the trimmed [info_name] of
    some base-pass entry (in particular when the raid pass lists nothing),
    the raid pass adds nothing: the result is the kept base-pass devices. *)
Theorem scanDevices_raid_pass_covered flags (baseDevices raidDevices : R) :
  (∀ x, x ∈ entries raidDevices → infoKey x ∈ infoKey <$> entries baseDevices) →
  scanDevices flags baseDevices raidDevices =
    filter (kept flags) (baseDevice <$> entries baseDevices).
Proof.
  intros Hcov. rewrite scanDevices_eq, candidates_eq.
  assert (raidOnly TrimSpace baseDevices raidDevices = []) as ->.
  { apply filter_none. intros x Hx Hkey. by apply Hkey, Hcov. }
  by rewrite app_nil_r.
Qed.

(** X10: the filter acts after the two passes are merged: scanning under a
    filter that keeps less gives what is left of the scan under a filter that
    keeps more once the devices the stricter filter ignores are removed; a
    raid-pass variant never takes the place of an ignored base-pass device. *)
Theorem scanDevices_refilter flags flags' (baseDevices raidDevices : R) :
  (∀ d, kept flags d → kept flags' d) →
  scanDevices flags baseDevices raidDevices =
    filter (kept flags) (scanDevices flags' baseDevices raidDevices).
Proof.
  intros Hmore. rewrite !scanDevices_eq. symmetry.
  by apply list_filter_filter_l.
Qed.

(** X11: after the first loop the map [isExists] holds [true] under the
    trimmed [info_name] of every base-pass entry and nothing else; it never
    holds [false]. *)
Theorem isExists_lookup (baseDevices : R) (key : string) :
  (baseLoop baseDevices).1 !! key =
    if decide (key ∈ infoKey <$> entries baseDevices) then Some true else None.
Proof.
  unfold exporter.baseLoop. rewrite baseStep_keys.
  assert (∀ es (m : gmap string bool),
    foldl (λ m e, <[infoKey e := true]> m) m es !! key =
      if decide (key ∈ infoKey <$> es) then Some true else m !! key) as Hfold.
  { induction es as [|e es IH]; intros m.
    - cbn [foldl]. destruct (decide (key ∈ infoKey <$> [])) as [Hin|];
        [by apply elem_of_nil in Hin | done].
    - cbn [foldl]. rewrite IH, fmap_cons.
      destruct (decide (key ∈ infoKey <$> es)) as [Hin|Hnin].
      + rewrite decide_True; [done | by right].
      + destruct (decide (infoKey e = key)) as [<-|Hne].
        * rewrite lookup_insert_eq. rewrite decide_True; [done | by left].
        * rewrite lookup_insert_ne by done. rewrite decide_False; [done |].
          intros [?|?]%elem_of_cons; congruence. }
  rewrite Hfold, lookup_empty. by destruct (decide _).
Qed.

End DiscoveryMore.

(** ** [Collect] *)

Section CollectMore.
Context {R : Type} `{!gjson.Result R}.
Context {Metric World SMARTctlInfo : Type}.
Variable deviceCountMetric : nat → Metric.
Variable readData : World → Device → R * World.
Variable NewSMARTctlInfo : SMARTctlInfo.
Variable SetJSON : SMARTctlInfo → R → SMARTctlInfo.
Variable infoCollect : SMARTctlInfo → list Metric.
Variable smartCollect : R → list Metric.

Local Abbreviation Collect :=
  (Collect deviceCountMetric readData NewSMARTctlInfo SetJSON infoCollect
           smartCollect).
Local Abbreviation outcomes := (outcomes readData).
Local Abbreviation worldAfter := (worldAfter readData).
Local Abbreviation emitted := (emitted smartCollect).
Local Abbreviation infoAfter := (infoAfter SetJSON).

Lemma Collect_world devices w : (Collect devices w).2 = worldAfter w devices.
Proof.
  unfold exporter.Collect.
  by rewrite (collectStep_foldl readData SetJSON smartCollect).
Qed.

Lemma outcomes_app w devices1 devices2 :
  outcomes w (devices1 ++ devices2) =
    outcomes w devices1 ++ outcomes (worldAfter w devices1) devices2.
Proof.
  revert w. induction devices1 as [|d devices1 IH]; intros w; [done |].
  simpl. by rewrite IH.
Qed.

(** X12: when no device of the inventory gives a result that exists (in
    particular when the inventory is empty), a pass still reads every device
    and sends the device count, and [info] reaches [info.Collect] as
    [NewSMARTctlInfo] made it: [SetJSON] is not called. *)
Theorem Collect_nothing_readable (devices : list Device) (w : World) :
  Forall (λ json, gjson.Exists json = false) (outcomes w devices) →
  Collect devices w =
    ([deviceCountMetric (length devices)] ++ infoCollect NewSMARTctlInfo,
     worldAfter w devices).
Proof.
  intros Hnone. apply injective_projections; [| apply Collect_world].
  rewrite (Collect_eq deviceCountMetric readData NewSMARTctlInfo SetJSON).
  cbn [fst]. induction Hnone as [|json results Hjson _ IH]; [done |].
  rewrite bind_cons. unfold infoAfter, emitted in *.
  cbn [foldl]. by rewrite Hjson.
Qed.

(** X13: the reads of a pass are sequential: over a concatenation of two
    device sequences a pass sends the device metrics of the first, then the
    device metrics of the second read in the world the first reads left, then
    one count of all the devices; and it leaves the world a pass over the
    second would leave after a pass over the first. *)
Theorem Collect_app (devices1 devices2 : list Device) (w : World) :
  (Collect (devices1 ++ devices2) w).1 =
    (outcomes w devices1 ≫= emitted) ++
    (outcomes (Collect devices1 w).2 devices2 ≫= emitted) ++
    [deviceCountMetric (length devices1 + length devices2)] ++
    infoCollect
      (infoAfter (infoAfter NewSMARTctlInfo (outcomes w devices1))
                 (outcomes (Collect devices1 w).2 devices2)) ∧
  (Collect (devices1 ++ devices2) w).2 =
    (Collect devices2 (Collect devices1 w).2).2.
Proof.
  rewrite !Collect_world. split.
  - rewrite (Collect_eq deviceCountMetric readData NewSMARTctlInfo SetJSON).
    rewrite outcomes_app, bind_app, length_app, <- app_assoc.
    unfold infoAfter. by rewrite foldl_app.
  - unfold worldAfter. by rewrite foldl_app.
Qed.

End CollectMore.

(** ** The process *)

Lemma holding_some l :
  1 ≤ holding l → ∃ i pc, l !! i = Some pc ∧ passHolds pc = true.
Proof.
  induction l as [|a l IH]; simpl; intros Hl; [lia |].
  destruct (passHolds a) eqn:Ha.
  - by exists 0, a.
  - destruct IH as (i & pc & Hi & Hpc); [lia |]. by exists (S i), pc.
Qed.

Lemma holding_at l i pc :
  l !! i = Some pc → passHolds pc = true → 1 ≤ holding l.
Proof.
  revert i. induction l as [|a l IH]; intros [|i] Hi Hpc; simplify_eq/=.
  - rewrite Hpc. lia.
  - specialize (IH i Hi Hpc). lia.
Qed.

(** A pass that holds the mutex can always take its next step. *)
Lemma holder_passStep c pc : passHolds pc = true → is_Some (passStep c pc).
Proof. destruct pc as [| |seen [|d rest]| | |]; by eauto. Qed.

Section ProcessMore.
Context {R : Type} `{!gjson.Result R} `{!regexp.Engine}.
Variable TrimSpace : string → string.
Variable getDiskName : string → string → string.
Variable formatDevices : R → list Device.
Variable readSMARTctlDevices : nat → list string → R.
Variable flags : Flags.

Local Abbreviation scanDevicesAt :=
  (scanDevicesAt TrimSpace getDiskName formatDevices readSMARTctlDevices flags).
Local Abbreviation startupDevices :=
  (startupDevices TrimSpace getDiskName formatDevices readSMARTctlDevices flags).
Local Abbreviation rescanStep :=
  (rescanStep TrimSpace getDiskName formatDevices readSMARTctlDevices flags).
Local Abbreviation step :=
  (step TrimSpace getDiskName formatDevices readSMARTctlDevices flags).
Local Abbreviation run :=
  (run TrimSpace getDiskName formatDevices readSMARTctlDevices flags).
Local Abbreviation main :=
  (main TrimSpace getDiskName formatDevices readSMARTctlDevices flags).
Local Abbreviation inventoryAt :=
  (inventoryAt TrimSpace getDiskName formatDevices readSMARTctlDevices flags).
Local Abbreviation invariant :=
  (invariant TrimSpace getDiskName formatDevices readSMARTctlDevices flags).

Lemma run_app s schedule1 schedule2 :
  run s (schedule1 ++ schedule2) =
    s' ← run s schedule1; run s' schedule2.
Proof.
  revert s. induction schedule1 as [|choice schedule1 IH]; intros s; [done |].
  simpl. destruct (step s choice) as [s1|]; simpl; [apply IH | done].
Qed.

(** X14: [Unlock()] is only ever called on a locked mutex: in every run,
    whenever a goroutine stands between its [Lock()] and the end of its
    [Unlock()] the mutex is locked. *)
Theorem unlock_only_when_locked schedule s :
  run main schedule = Some s →
  (∀ pc, rescanner s = Some pc → rescanHolds pc = true →
         mutex (collector s) = true) ∧
  (∀ i pc, passes s !! i = Some pc → passHolds pc = true →
           mutex (collector s) = true).
Proof.
  intros Hrun.
  pose proof (invariant_run TrimSpace getDiskName formatDevices
                readSMARTctlDevices flags _ _ Hrun) as [Hm _ _ _].
  unfold holders in Hm. split.
  - intros pc Hpc Hholds. rewrite Hpc, Hholds in Hm.
    destruct (mutex (collector s)); [done | lia].
  - intros i pc Hi Hholds. pose proof (holding_at _ _ _ Hi Hholds).
    destruct (mutex (collector s)); [done | lia].
Qed.

(** X15: the process cannot deadlock on the mutex.  In every run, when the
    mutex is locked some goroutine holds it and can take its next step; when
    it is unlocked, every call of [Collect] that stands at its [Lock()] and
    the rescan goroutine, if started, can take their next step. *)
Theorem holder_can_step schedule s :
  run main schedule = Some s →
  (mutex (collector s) = true →
     (∃ pc, rescanner s = Some pc ∧ rescanHolds pc = true ∧
            is_Some (step s Rescan)) ∨
     (∃ i pc, passes s !! i = Some pc ∧ passHolds pc = true ∧
              is_Some (step s (Pass i)))) ∧
  (mutex (collector s) = false →
     (∀ pc, rescanner s = Some pc → is_Some (step s Rescan)) ∧
     (∀ i, passes s !! i = Some CLock → is_Some (step s (Pass i)))).
Proof.
  intros Hrun.
  pose proof (invariant_run TrimSpace getDiskName formatDevices
                readSMARTctlDevices flags _ _ Hrun) as [Hm _ _ _].
  unfold holders in Hm. split; intros Hmu; rewrite Hmu in Hm.
  - destruct (rescanner s) as [pc|] eqn:Hpc.
    + destruct (rescanHolds pc) eqn:Hholds.
      * left. exists pc. repeat split; [done |]. simpl. rewrite Hpc. simpl.
        destruct pc; simplify_eq/=; eauto.
      * right. destruct (holding_some (passes s)) as (i & p & Hi & Hp); [lia |].
        exists i, p. repeat split; [done.. |]. simpl. rewrite Hi. simpl.
        destruct (holder_passStep (collector s) p Hp) as [[c p'] ->]. eauto.
    + right. destruct (holding_some (passes s)) as (i & p & Hi & Hp); [lia |].
      exists i, p. repeat split; [done.. |]. simpl. rewrite Hi. simpl.
      destruct (holder_passStep (collector s) p Hp) as [[c p'] ->]. eauto.
  - split.
    + intros pc Hpc. simpl. rewrite Hpc. simpl.
      destruct pc; simpl; rewrite ?Hmu; eauto.
    + intros i Hi. simpl. rewrite Hi. simpl. rewrite Hmu. eauto.
Qed.

(** The loop of a pass, run alone, visits the devices ahead of it in order. *)
Lemma pass_loop s i seen rest :
  passes s !! i = Some (CLoop seen rest) →
  run s (replicate (length rest) (Pass i)) =
    Some {| collector := collector s; rescanner := rescanner s;
            passes := <[i := CLoop (seen ++ rest) []]> (passes s);
            scans := scans s |}.
Proof.
  revert s seen. induction rest as [|d rest IH]; intros s seen Hi.
  - simpl. rewrite app_nil_r, list_insert_id by done. by destruct s.
  - cbn [length replicate exporter.run exporter.step]. rewrite Hi. simpl.
    rewrite (IH _ (seen ++ [d])); simpl.
    + by rewrite list_insert_insert_eq, <- app_assoc.
    + apply list_lookup_insert_eq. by eapply lookup_lt_Some.
Qed.

(** X16: a call of [Collect] that finds the mutex unlocked and then runs
    without interruption returns after five steps and one per device; it has
    visited exactly the inventory, in order, has sent its length as the
    count, and has left the collector as it found it, mutex unlocked. *)
Theorem pass_runs_to_completion s i :
  passes s !! i = Some CLock →
  mutex (collector s) = false →
  run s (replicate (length (Devices (collector s)) + 5) (Pass i)) =
    Some {| collector := collector s; rescanner := rescanner s;
            passes := <[i := CDone (Devices (collector s))
                                   (length (Devices (collector s)))]> (passes s);
            scans := scans s |}.
Proof.
  intros Hi Hmu. assert (i < length (passes s)) by by eapply lookup_lt_Some.
  replace (length (Devices (collector s)) + 5)
    with (2 + (length (Devices (collector s)) + 3)) by lia.
  rewrite replicate_add, run_app.
  cbn [replicate exporter.run exporter.step]. rewrite Hi. simpl. rewrite Hmu.
  simpl. rewrite list_lookup_insert_eq by done. simpl.
  rewrite list_insert_insert_eq.
  rewrite replicate_add, run_app.
  erewrite pass_loop; [| simpl; by apply list_lookup_insert_eq].
  simpl. rewrite list_insert_insert_eq.
  rewrite !list_lookup_insert_eq by (by rewrite ?length_insert). simpl.
  rewrite !list_lookup_insert_eq by (by rewrite ?length_insert). simpl.
  rewrite !list_lookup_insert_eq by (by rewrite ?length_insert). simpl.
  rewrite !list_insert_insert_eq.
  destruct s as [[devices mu] r ps n]. simpl in *. by subst.
Qed.

(** X17: one iteration of the rescan loop that finds the mutex unlocked
    when it needs it runs a discovery pass, stores its result as the whole
    inventory, and is back asleep after four steps with the mutex unlocked;
    no call of [Collect] is touched. *)
Theorem rescan_tick s :
  rescanner s = Some RSleep →
  mutex (collector s) = false →
  run s [Rescan; Rescan; Rescan; Rescan] =
    Some {| collector := {| Devices := scanDevicesAt (scans s); mutex := false |};
            rescanner := Some RSleep;
            passes := passes s;
            scans := S (scans s) |}.
Proof.
  intros Hpc Hmu. cbn [exporter.run exporter.step]. rewrite Hpc. simpl.
  by rewrite Hmu.
Qed.

(** X18: the inventory is always that of the latest discovery pass whose
    result the rescan goroutine has stored: it is one pass behind exactly
    while the goroutine carries a result from [scanDevices] to its
    assignment, and it is never older. *)
Theorem inventory_is_latest schedule s :
  run main schedule = Some s →
  inventoryLag (rescanner s) ≤ scans s ∧
  Devices (collector s) = inventoryAt (scans s - inventoryLag (rescanner s)).
Proof.
  intros Hrun.
  assert (∀ s0, invariant s0 →
    inventoryLag (rescanner s0) ≤ scans s0 ∧
    Devices (collector s0) =
      inventoryAt (scans s0 - inventoryLag (rescanner s0)) →
    run s0 schedule = Some s →
    inventoryLag (rescanner s) ≤ scans s ∧
    Devices (collector s) = inventoryAt (scans s - inventoryLag (rescanner s)))
    as Hgen.
  { clear Hrun. induction schedule as [|choice schedule IH];
      intros s0 Hinv Hlate Hrun0; simpl in Hrun0; [by simplify_eq |].
    destruct (step s0 choice) as [s1|] eqn:E; simpl in Hrun0; [| done].
    apply (IH s1); [by eapply invariant_step | | done].
    clear IH Hrun0. destruct Hlate as [Hlag Hlate].
    destruct Hinv as [_ _ Hr _].
    destruct choice as [| |i]; simpl in E.
    - by simplify_eq.
    - destruct (rescanner s0) as [pc|] eqn:Hpc; simpl in E; [| done].
      destruct pc as [|devices|devices|]; simpl in E.
      + simplify_eq. simpl in *. split; [lia |].
        rewrite Hlate. f_equal; lia.
      + destruct (mutex (collector s0)); [done |].
        injection E as <-. by simpl in *.
      + simplify_eq. simpl in *. destruct Hr as [Hn ->]. split; [lia |].
        unfold inventoryAt.
        destruct (scans s0 - 1) eqn:Ek; [lia | done].
      + injection E as <-. by simpl in *.
    - destruct (passes s0 !! i) as [pc|] eqn:Hpc; simpl in E; [| done].
      destruct (passStep (collector s0) pc) as [[c pc']|] eqn:Ep;
        simpl in E; simplify_eq. simpl.
      assert (Devices c = Devices (collector s0)) as ->; [| done].
      destruct pc as [| |seen [|d rest]| | |]; simpl in Ep;
        try destruct (mutex (collector s0)); by simplify_eq. }
  apply (Hgen main); [apply invariant_main | | done].
  simpl. case_bool_decide; simpl; (split; [lia | done]).
Qed.

Lemma filter_keeps_all {A} (P : A → Prop) `{!∀ x, Decision (P x)} (l : list A) :
  filter P l = l ↔ Forall P l.
Proof.
  rewrite Forall_forall. split; [| apply filter_all].
  intros Heq x Hx. rewrite <- Heq in Hx.
  by apply list_elem_of_filter in Hx as [? _].
Qed.

(** X19: the explicit devices can only narrow: the start-up inventory is
    the first discovery pass with some devices left out, and it is the whole
    first discovery pass exactly when no explicit device is given or the
    canonical name of every discovered device contains one of them. *)
Theorem startup_narrows_only :
  startupDevices `sublist_of` scanDevicesAt 0 ∧
  (startupDevices = scanDevicesAt 0 ↔
     smartctlDevices flags = [] ∨
     Forall (allowed (smartctlDevices flags)) (scanDevicesAt 0)).
Proof.
  unfold exporter.startupDevices. rewrite filterDevices_filter.
  destruct (smartctlDevices flags) as [|name names] eqn:E.
  - rewrite bool_decide_eq_false_2 by (simpl; lia).
    split; [done | split; [by left | done]].
  - rewrite bool_decide_eq_true_2 by (simpl; lia).
    split; [apply sublist_filter |]. rewrite filter_keeps_all.
    split; [by right | by intros [? | ?]].
Qed.

(** X21: collection never changes the inventory: along every run in which
    the rescan goroutine takes no step, from any state, the inventory, the
    number of discovery passes and the state of the rescan goroutine stay as
    they were. *)
Theorem passes_leave_inventory s schedule s' :
  run s schedule = Some s' →
  Rescan ∉ schedule →
  Devices (collector s') = Devices (collector s) ∧
  scans s' = scans s ∧ rescanner s' = rescanner s.
Proof.
  revert s. induction schedule as [|choice schedule IH]; intros s Hrun Hno;
    simpl in Hrun; [by simplify_eq |].
  apply not_elem_of_cons in Hno as [Hne Hno].
  destruct (step s choice) as [s1|] eqn:E; simpl in Hrun; [| done].
  destruct (IH s1 Hrun Hno) as (-> & -> & ->). clear IH Hrun.
  destruct choice as [| |i]; simpl in E; [by simplify_eq | done |].
  destruct (passes s !! i) as [pc|]; simpl in E; [| done].
  destruct (passStep (collector s) pc) as [[c pc']|] eqn:Ep;
    simpl in E; simplify_eq. simpl. split; [| done].
  destruct pc as [| |seen [|d rest]| | |]; simpl in Ep;
    try destruct (mutex (collector s)); by simplify_eq.
Qed.

End ProcessMore.

(** ** The further properties on the concrete host *)

Module Usage.
Import Fixture Host.

Local Abbreviation scan := (scanDevices TrimSpace getDiskName formatDevices).
Local Abbreviation process := (main TrimSpace getDiskName formatDevices tool).
Local Abbreviation runProcess := (run TrimSpace getDiskName formatDevices tool).

Definition disks : list Device :=
  [mkDevice "/dev/sda" "sda" "scsi"; mkDevice "/dev/nvme0" "nvme0" "nvme";
   mkDevice "/dev/sdb" "sdb" "scsi"].

Lemma filterDevices_empty_entry_witness :
  filterDevices disks ["sda"; ""] = disks.
Proof. apply filterDevices_empty_entry. compute_done. Defined.

Lemma filterDevices_same_entries_witness :
  filterDevices disks ["sda"; "nvme"; "sda"] = filterDevices disks ["nvme"; "sda"].
Proof.
  apply filterDevices_same_entries. intros entry.
  rewrite !elem_of_cons, !elem_of_nil. tauto.
Defined.

Lemma filterDevices_more_entries_witness :
  filterDevices disks ["sda"] `sublist_of` filterDevices disks ["nvme"; "sda"].
Proof.
  apply filterDevices_more_entries. intros entry.
  rewrite !elem_of_cons, !elem_of_nil. tauto.
Defined.

(** Both [sd] and [a] match [sda]; it is retained once. *)
Lemma filterDevices_no_repeat_witness :
  NoDup (filterDevices disks ["sd"; "a"]).
Proof.
  apply (proj2 (filterDevices_no_repeat disks ["sd"; "a"])). compute_done.
Defined.

Lemma scanDevices_base_pass_empty_witness :
  scan defaultFlags (listing []) (listing [sda; sdc]) =
    filter (kept defaultFlags)
      (entries (listing [sda; sdc]) ≫= formatDevices).
Proof. by apply scanDevices_base_pass_empty. Defined.

Lemma scanDevices_raid_pass_covered_witness :
  scan defaultFlags (listing [sda; sdb]) (listing [sda]) =
    filter (kept defaultFlags)
      (baseDevice TrimSpace getDiskName <$> entries (listing [sda; sdb])).
Proof.
  apply scanDevices_raid_pass_covered. intros x Hx.
  apply (list_elem_of_singleton x sda) in Hx as ->. compute_done.
Defined.

Lemma scanDevices_refilter_witness :
  scan excludeLoop (listing [sda; loop0]) (listing [loop0; sdc]) =
    filter (kept excludeLoop)
      (scan defaultFlags (listing [sda; loop0]) (listing [loop0; sdc])).
Proof. apply scanDevices_refilter. intros d _. reflexivity. Defined.

Lemma Collect_nothing_readable_witness :
  Collect DeviceCount readAnswer None firstJSON versionMetric statusMetric
    inventory [] =
  ([DeviceCount (length inventory)] ++ versionMetric None,
   worldAfter readAnswer [] inventory).
Proof. apply Collect_nothing_readable. by repeat constructor. Defined.

Lemma unlock_only_when_locked_witness :
  (∀ pc, rescanner afterInterleaving = Some pc → rescanHolds pc = true →
         mutex (collector afterInterleaving) = true) ∧
  (∀ i pc, passes afterInterleaving !! i = Some pc → passHolds pc = true →
           mutex (collector afterInterleaving) = true).
Proof.
  apply (unlock_only_when_locked TrimSpace getDiskName formatDevices tool
           defaultFlags interleaving).
  vm_compute. reflexivity.
Defined.

Lemma holder_can_step_witness :
  (mutex (collector afterInterleaving) = true →
     (∃ pc, rescanner afterInterleaving = Some pc ∧ rescanHolds pc = true ∧
            is_Some (step TrimSpace getDiskName formatDevices tool defaultFlags
                       afterInterleaving Rescan)) ∨
     (∃ i pc, passes afterInterleaving !! i = Some pc ∧ passHolds pc = true ∧
              is_Some (step TrimSpace getDiskName formatDevices tool
                         defaultFlags afterInterleaving (Pass i)))) ∧
  (mutex (collector afterInterleaving) = false →
     (∀ pc, rescanner afterInterleaving = Some pc →
            is_Some (step TrimSpace getDiskName formatDevices tool defaultFlags
                       afterInterleaving Rescan)) ∧
     (∀ i, passes afterInterleaving !! i = Some CLock →
           is_Some (step TrimSpace getDiskName formatDevices tool defaultFlags
                      afterInterleaving (Pass i)))).
Proof.
  apply (holder_can_step TrimSpace getDiskName formatDevices tool
           defaultFlags interleaving).
  vm_compute. reflexivity.
Defined.

(** The process once a first scrape has arrived. *)
Definition scraped : System :=
  Eval vm_compute in
    default (process defaultFlags)
      (runProcess defaultFlags (process defaultFlags) [Scrape]).

Lemma pass_runs_to_completion_witness :
  runProcess defaultFlags scraped
    (replicate (length (Devices (collector scraped)) + 5) (Pass 0)) =
  Some {| collector := collector scraped; rescanner := rescanner scraped;
          passes := <[0 := CDone (Devices (collector scraped))
                                 (length (Devices (collector scraped)))]>
                      (passes scraped);
          scans := scans scraped |}.
Proof. by apply pass_runs_to_completion. Defined.

Lemma rescan_tick_witness :
  runProcess defaultFlags scraped [Rescan; Rescan; Rescan; Rescan] =
  Some {| collector :=
            {| Devices := scanDevicesAt TrimSpace getDiskName formatDevices
                            tool defaultFlags (scans scraped);
               mutex := false |};
          rescanner := Some RSleep;
          passes := passes scraped;
          scans := S (scans scraped) |}.
Proof. by apply rescan_tick. Defined.

Lemma inventory_is_latest_witness :
  inventoryLag (rescanner afterInterleaving) ≤ scans afterInterleaving ∧
  Devices (collector afterInterleaving) =
    inventoryAt TrimSpace getDiskName formatDevices tool defaultFlags
      (scans afterInterleaving - inventoryLag (rescanner afterInterleaving)).
Proof.
  apply (inventory_is_latest TrimSpace getDiskName formatDevices tool
           defaultFlags interleaving).
  vm_compute. reflexivity.
Defined.

Lemma passes_leave_inventory_witness :
  Devices (collector afterScrapes) = Devices (collector (process rescanOff)) ∧
  scans afterScrapes = scans (process rescanOff) ∧
  rescanner afterScrapes = rescanner (process rescanOff).
Proof.
  apply (passes_leave_inventory TrimSpace getDiskName formatDevices tool
           rescanOff (process rescanOff) scrapesOnly);
    [vm_compute; reflexivity |].
  unfold scrapesOnly.
  repeat (apply not_elem_of_cons; split; [discriminate |]).
  apply not_elem_of_nil.
Defined.

End Usage.
